(** * NodeAtlas: the child-map cache (cache.go)

    A shallow embedding of the federated aggregation code of NodeAtlas:
    the two cache inserts ([CacheNode], [CacheNodes]), the loading of the
    hostname/ID table ([GetMapSourceToID]), the per-remote fetcher
    ([GetAllFromChildMap]) and the concurrent aggregation pass
    ([GetAllFromChildMaps]), the latter as an interleaving semantics whose
    atomic steps are the critical sections of the Go code. *)

From stdpp Require Import gmap strings list fin_maps.
From Stdlib Require Import ZArith Lia Strings.Ascii.

Open Scope Z_scope.

(** ** Data *)

(** Go's [error] interface, as far as the code distinguishes its values:
    [sql.ErrNoRows] is compared against, every other error is only passed
    on or printed.  A nil error is [None] in [option error]. *)
Inductive error :=
| ErrNoRows
| ErrOther (msg : string).

(** [float64] values are decoded, carried and stored, never computed
    with; they are kept as their IEEE-754 bit patterns. *)
Record float64 := Float64frombits { Float64bits : Z }.

(** [type IP net.IP], a byte slice. *)
Definition IP := list Byte.byte.

(** Go's [int] on a 64-bit target, with its wrap-around. *)
Definition intSize : Z := 64.
Definition wrapInt (z : Z) : Z :=
  (z + 2 ^ (intSize - 1)) mod 2 ^ intSize - 2 ^ (intSize - 1).

(** The [Node] struct is declared outside cache.go; these are the fields
    cache.go and the database test use.  [Status] is an enumerated
    integer code ([StatusPossible], [StatusActive], ...). *)
Record Node := mkNode {
  Addr : IP;
  OwnerName : string;
  OwnerEmail : string;
  Latitude : float64;
  Longitude : float64;
  Status : Z;
  SourceID : Z;
  RetrieveTime : Z
}.

(** [n.SourceID = id] *)
Definition setSourceID (id : Z) (n : Node) : Node :=
  {| Addr := Addr n; OwnerName := OwnerName n; OwnerEmail := OwnerEmail n;
     Latitude := Latitude n; Longitude := Longitude n; Status := Status n;
     SourceID := id; RetrieveTime := RetrieveTime n |}.

(** ** The store *)

(** An argument handed to [stmt.Exec], tagged with its Go type. *)
Inductive sqlArg :=
| ArgIP (a : IP)
| ArgBytes (b : list Byte.byte)
| ArgString (s : string)
| ArgFloat (f : float64)
| ArgInt (i : Z)
| ArgStatus (s : Z)
| ArgInt64 (i : Z).

(** What the program asks of the database, in order. *)
Inductive dbEvent :=
| EvPrepare (sql : string)
| EvExec (sql : string) (args : list sqlArg)
| EvClose (sql : string)
| EvQuery (sql : string).

(** One [rows.Next()] that returned true, with what [rows.Scan] gives. *)
Inductive scanResult :=
| ScanOk (hostname : string) (id : Z)
| ScanErr (e : error).

(** The outcome of [db.Query]: an error, or the rows delivered until
    [rows.Next()] returns false. *)
Inductive queryResult :=
| QueryErr (e : error)
| QueryRows (rows : list scanResult).

(** The INSERT statement of [CacheNode], cache.go lines 13-15. *)
Definition cacheNodeSQL : string :=
"INSERT INTO nodes_cached
(address, owner, lat, lon, status, expiration)
VALUES(?, ?, ?, ?, ?, ?, ?)".

(** The INSERT statement of [CacheNodes], cache.go lines 26-28. *)
Definition cacheNodesSQL : string :=
"INSERT INTO nodes_cached
(address, owner, lat, lon, status, source, retrieved)
VALUES (?, ?, ?, ?, ?, ?, ?)".

Definition sourceToIDSQL : string :=
"SELECT hostname,id
FROM cached_maps;".

(** Reading an INSERT statement: the names between the first pair of
    parentheses, and the number of [?] markers. *)
Module SQL.

Definition isSpace (c : Strings.Ascii.ascii) : bool :=
  (Strings.Ascii.eqb c " "%char || Strings.Ascii.eqb c "009"%char
   || Strings.Ascii.eqb c "010"%char || Strings.Ascii.eqb c "013"%char)%bool.

Fixpoint afterOpen (s : string) : string :=
  match s with
  | EmptyString => EmptyString
  | String c rest => if Strings.Ascii.eqb c "("%char then rest else afterOpen rest
  end.

Fixpoint untilClose (s : string) : string :=
  match s with
  | EmptyString => EmptyString
  | String c rest => if Strings.Ascii.eqb c ")"%char then EmptyString else String c (untilClose rest)
  end.

(** split on commas, dropping white space *)
Fixpoint splitNames (s : string) (cur : string) : list string :=
  match s with
  | EmptyString => [cur]
  | String c rest =>
      if Strings.Ascii.eqb c ","%char then cur :: splitNames rest EmptyString
      else if isSpace c then splitNames rest cur
      else splitNames rest (cur +:+ String c EmptyString)
  end.

Definition columns (sql : string) : list string :=
  splitNames (untilClose (afterOpen sql)) EmptyString.

Fixpoint placeholders (sql : string) : nat :=
  match sql with
  | EmptyString => O
  | String c rest =>
      if Strings.Ascii.eqb c "?"%char then S (placeholders rest) else placeholders rest
  end.

(** the column a positional argument lands in *)
Definition columnOf (sql : string) (pos : nat) : option string :=
  columns sql !! pos.

End SQL.

(** The environment of one run: how the database answers, given
    everything asked of it so far; the wall clock, by the number of
    readings taken; the remote maps, by requesting task and URL; and the
    order in which [range] walks a decoded map. *)
Inductive httpResult :=
| TransportErr (e : error)
| DecodeErr (e : error)
| RemoteErr (msg : string)
| Decoded (data : gmap string (list Node)).

Record Env := mkEnv {
  prepareErr : list dbEvent → string → option error;
  execErr : list dbEvent → string → list sqlArg → option error;
  queryRes : list dbEvent → string → queryResult;
  clock : nat → Z;
  httpGet : nat → string → httpResult;
  rangeOrder : gmap string (list Node) → list (string * list Node)
}.

Record World := mkWorld {
  dbLog : list dbEvent;
  ticks : nat
}.

Definition world0 : World := {| dbLog := []; ticks := 0 |}.

(** State passing over the [World]. *)
Definition M (A : Type) : Type := World → A * World.

Definition ret {A} (a : A) : M A := λ w, (a, w).
Definition bind {A B} (m : M A) (k : A → M B) : M B :=
  λ w, let (a, w') := m w in k a w'.

Declare Scope io_scope.
Delimit Scope io_scope with io.
Notation "'do' x <- m ; k" := (bind m (λ x, k))
  (at level 10, x name, m at level 100, k at level 200) : io_scope.

Definition logDb (ev : dbEvent) (w : World) : World :=
  {| dbLog := dbLog w ++ [ev]; ticks := ticks w |}.

(** one more reading of the clock has been taken *)
Definition tick (w : World) : World :=
  {| dbLog := dbLog w; ticks := S (ticks w) |}.

Section Store.
Context (env : Env).

Definition Prepare (sql : string) : M (option error) :=
  λ w, (prepareErr env (dbLog w) sql, logDb (EvPrepare sql) w).

Definition Exec (sql : string) (args : list sqlArg) : M (option error) :=
  λ w, (execErr env (dbLog w) sql args, logDb (EvExec sql args) w).

Definition Close (sql : string) : M unit :=
  λ w, (tt, logDb (EvClose sql) w).

Definition Query (sql : string) : M queryResult :=
  λ w, (queryRes env (dbLog w) sql, logDb (EvQuery sql) w).

(** [time.Now().Unix()] *)
Definition Now : M Z :=
  λ w, (clock env (ticks w), tick w).

(** [CacheNode]: the [expiry] parameter is declared and not used. *)
Definition cacheNodeArgs (node : Node) : list sqlArg :=
  [ArgIP (Addr node); ArgString (OwnerName node);
   ArgFloat (Latitude node); ArgFloat (Longitude node);
   ArgInt (SourceID node); ArgStatus (Status node)].

Definition CacheNode (node : Node) (expiry : Z) : M (option error) :=
  (do err <- Prepare cacheNodeSQL;
   match err with
   | Some _ => ret err
   | None =>
       do err <- Exec cacheNodeSQL (cacheNodeArgs node);
       do _ <- Close cacheNodeSQL;
       ret err
   end)%io.

(** [CacheNodes] *)
Definition cacheNodesArgs (node : Node) (retrieved : Z) : list sqlArg :=
  [ArgBytes (Addr node); ArgString (OwnerName node);
   ArgFloat (Latitude node); ArgFloat (Longitude node);
   ArgStatus (Status node); ArgInt (SourceID node); ArgInt64 retrieved].

Definition retrievedOf (node : Node) : M Z :=
  if RetrieveTime node =? 0 then Now else ret (RetrieveTime node).

(** the body of the [for _, node := range nodes] loop, up to the test
    of [err]. *)
Definition cacheOne (node : Node) : M (option error) :=
  (do retrieved <- retrievedOf node;
   Exec cacheNodesSQL (cacheNodesArgs node retrieved))%io.

Fixpoint cacheRange (nodes : list Node) : M (option error) :=
  match nodes with
  | [] => ret None
  | node :: rest =>
      (do err <- cacheOne node;
       match err with
       | Some _ => ret err
       | None => cacheRange rest
       end)%io
  end.

Definition CacheNodes (nodes : list Node) : M (option error) :=
  (do err <- Prepare cacheNodesSQL;
   match err with
   | Some _ => ret err
   | None =>
       do err <- cacheRange nodes;
       match err with
       | Some _ => ret err
       | None => do _ <- Close cacheNodesSQL; ret None
       end
   end)%io.

End Store.

(** ** The source registry *)

(** cache.go lines 261-263: the lookup made under the read lock. *)
Definition lookupSource (source : string) (sourceToID : gmap string Z) : option Z :=
  sourceToID !! source.

(** cache.go lines 267-270: what is done under the write lock.  The map
    is not consulted again; the new ID is the length of the map plus one. *)
Definition allocSource (source : string) (sourceToID : gmap string Z)
  : Z * gmap string Z :=
  let id := wrapInt (Z.of_nat (size sourceToID) + 1) in
  (id, <[source := id]> sourceToID).

(** Both sections one after the other, with no other task in between. *)
Definition resolve (source : string) (sourceToID : gmap string Z)
  : Z * gmap string Z :=
  match lookupSource source sourceToID with
  | Some id => (id, sourceToID)
  | None => allocSource source sourceToID
  end.

(** First-time resolutions of a list of hostnames, in order; the IDs
    handed out. *)
Fixpoint resolveAll (sources : list string) (sourceToID : gmap string Z)
  : list Z * gmap string Z :=
  match sources with
  | [] => ([], sourceToID)
  | h :: rest =>
      let (id, reg) := resolve h sourceToID in
      let (ids, reg') := resolveAll rest reg in
      (id :: ids, reg')
  end.

(** The registry an empty [cached_maps] table gives. *)
Definition seedRegistry : gmap string Z := {[ "local" := 0 ]}.

(** [GetMapSourceToID] *)
Fixpoint scanRows (rows : list scanResult) (sourceToID : gmap string Z)
  : gmap string Z * option error :=
  match rows with
  | [] => (sourceToID, None)
  | ScanErr e :: _ => (sourceToID, Some e)
  | ScanOk hostname id :: rest => scanRows rest (<[hostname := id]> sourceToID)
  end.

Section Registry.
Context (env : Env).

Definition GetMapSourceToID : M (gmap string Z * option error) :=
  (let sourceToID := seedRegistry in
   do q <- Query env sourceToIDSQL;
   match q with
   | QueryErr ErrNoRows => ret (sourceToID, None)
   | QueryErr e => ret (sourceToID, Some e)
   | QueryRows rows => ret (scanRows rows sourceToID)
   end)%io.

End Registry.

(** ** The fetcher *)

(** [strings.TrimRight(address, "/")] *)
Fixpoint trimRightSlash (s : string) : string :=
  match s with
  | EmptyString => EmptyString
  | String c rest =>
      match trimRightSlash rest with
      | EmptyString =>
          if Strings.Ascii.eqb c "/"%char then EmptyString else String c EmptyString
      | r => String c r
      end
  end.

Definition apiAllURL (address : string) : string :=
  "http://" +:+ trimRightSlash address +:+ "/api/all".

(** What goes to the logger [l]. *)
Inductive logEvent :=
| LogCaching (address : string) (e : error)
| LogRemote (address : string) (msg : string)
| LogDiscovered (source : string) (id : Z).

(** cache.go lines 254-256.  [replacedLocal] is declared at line 250 and
    never assigned, so it is [false] at every test. *)
Definition effectiveSource (replacedLocal : bool) (address source : string) : string :=
  if (negb replacedLocal && String.eqb source "local")%bool then address else source.

(** cache.go lines 278-280.  The nodes of a decoded payload are freshly
    allocated and pairwise distinct, so stamping through the pointers is
    stamping the values. *)
Definition stampAll (id : Z) (remoteNodes : list Node) : list Node :=
  map (setSourceID id) remoteNodes.

(** The [for source, remoteNodes := range jresp.Data] loop, run with no
    other task touching the registry; [entries] is the map in the order
    [range] yields it. *)
Fixpoint rangeData (address : string) (entries : list (string * list Node))
    (sourceToID : gmap string Z) (nodes : list Node)
  : list Node * gmap string Z :=
  match entries with
  | [] => (nodes, sourceToID)
  | (source, remoteNodes) :: rest =>
      let replacedLocal := false in
      let source := effectiveSource replacedLocal address source in
      let (id, reg) := resolve source sourceToID in
      rangeData address rest reg (nodes ++ stampAll id remoteNodes)
  end.

Section Fetcher.
Context (env : Env).

(** [GetAllFromChildMap], run by task number [task] with no
    interference: the returned slice ([None] for nil) and the registry
    afterwards. *)
Definition GetAllFromChildMap (task : nat) (address : string)
    (sourceToID : gmap string Z) : option (list Node) * gmap string Z :=
  match httpGet env task (apiAllURL address) with
  | TransportErr _ | DecodeErr _ | RemoteErr _ => (None, sourceToID)
  | Decoded data =>
      let (nodes, reg) := rangeData address (rangeOrder env data) sourceToID [] in
      (Some nodes, reg)
  end.

End Fetcher.

(** ** The aggregation pass

    [GetAllFromChildMaps] starts one goroutine per address and waits for
    them on an unbuffered channel.  The pass is modelled as a machine
    whose atomic steps are the sections of the code between two
    synchronisation points: what the locks and the channel allow to
    interleave, the machine interleaves, in the order a schedule gives. *)

(** Where a goroutine started at line 170 stands. *)
Inductive taskPc :=
| TStart
    (* started; the closure has not yet read [address] *)
| TFetch (address : string)
    (* in GetAllFromChildMap, before http.Get *)
| TRange (address : string) (todo : list (string * list Node)) (nodes : list Node)
    (* at the head of the range loop, line 251 *)
| TMiss (address source : string) (remoteNodes : list Node)
        (todo : list (string * list Node)) (nodes : list Node)
    (* the lookup missed, line 264; waiting for the write lock *)
| TResult (res : option (list Node))
    (* GetAllFromChildMap has returned, line 203 *)
| TSignal
    (* at finishChan <- nil, line 173 *)
| TDone.

(** Where the goroutine running [GetAllFromChildMaps] stands. *)
Inductive mainPc :=
| MLoad
| MSpawn (rest : list string)
| MWait (workers : nat)
| MCommit
| MReturned (err : option error).

(** Observations kept for stating properties; the code does not read
    them. *)
Inductive event :=
| Spawned (task : nat)
| ReadAddress (task : nat) (address : string)
| Requested (task : nat) (url : string)
| Resolved (task : nat) (source : string) (id : Z)
| Appended (task : nat) (ns : list Node)
| Signalled (task : nat)
| CommitStarted (batch : list Node).

Record State := mkState {
  mainPC : mainPc;
  address : string;
    (* the loop variable of line 169: one variable for the whole loop,
       which the closures of line 170 share (the semantics of range
       loops before Go 1.22; the sources declare no language version) *)
  sourceToID : gmap string Z;
  nodes : list Node;
  tasks : list taskPc;
  world : World;
  logs : list logEvent;
  trace : list event
}.

Definition setMain (pc : mainPc) (s : State) : State :=
  mkState pc (address s) (sourceToID s) (nodes s) (tasks s) (world s) (logs s) (trace s).
Definition setAddress (a : string) (s : State) : State :=
  mkState (mainPC s) a (sourceToID s) (nodes s) (tasks s) (world s) (logs s) (trace s).
Definition setSourceToID (m : gmap string Z) (s : State) : State :=
  mkState (mainPC s) (address s) m (nodes s) (tasks s) (world s) (logs s) (trace s).
Definition setNodes (ns : list Node) (s : State) : State :=
  mkState (mainPC s) (address s) (sourceToID s) ns (tasks s) (world s) (logs s) (trace s).
Definition setTasks (ts : list taskPc) (s : State) : State :=
  mkState (mainPC s) (address s) (sourceToID s) (nodes s) ts (world s) (logs s) (trace s).
Definition setWorld (w : World) (s : State) : State :=
  mkState (mainPC s) (address s) (sourceToID s) (nodes s) (tasks s) w (logs s) (trace s).
Definition logIt (ev : logEvent) (s : State) : State :=
  mkState (mainPC s) (address s) (sourceToID s) (nodes s) (tasks s) (world s)
          (logs s ++ [ev]) (trace s).
Definition emit (ev : event) (s : State) : State :=
  mkState (mainPC s) (address s) (sourceToID s) (nodes s) (tasks s) (world s)
          (logs s) (trace s ++ [ev]).
Definition setTask (i : nat) (pc : taskPc) (s : State) : State :=
  setTasks (<[i := pc]> (tasks s)) s.

Inductive actor :=
| Main
| Task (i : nat).

Definition initial : State :=
  {| mainPC := MLoad; address := ""; sourceToID := ∅; nodes := [];
     tasks := []; world := world0; logs := []; trace := [] |}.

Section Pass.
Context (env : Env) (addresses : list string).

Definition stepMain (s : State) : option State :=
  match mainPC s with
  | MLoad =>
      (* lines 155-158 *)
      let '((m, err), w) := GetMapSourceToID env (world s) in
      match err with
      | Some e => Some (setMain (MReturned (Some e)) (setSourceToID m (setWorld w s)))
      | None => Some (setMain (MSpawn addresses) (setSourceToID m (setWorld w s)))
      end
  | MSpawn (a :: rest) =>
      (* lines 169-175: assign the loop variable, start the goroutine *)
      Some (setMain (MSpawn rest)
              (emit (Spawned (length (tasks s)))
                 (setTasks (tasks s ++ [TStart]) (setAddress a s))))
  | MSpawn [] =>
      (* line 186: workers := len(addresses) *)
      Some (setMain (MWait (length addresses)) s)
  | MWait (S _) =>
      (* line 187: blocked until some task sends *)
      None
  | MWait O =>
      Some (setMain MCommit s)
  | MCommit =>
      (* line 190 *)
      let (err, w) := CacheNodes env (nodes s) (world s) in
      Some (setMain (MReturned err)
              (setWorld w (emit (CommitStarted (nodes s)) s)))
  | MReturned _ => None
  end.

Definition stepTask (i : nat) (s : State) : option State :=
  match tasks s !! i with
  | None => None
  | Some TStart =>
      (* line 171: the arguments of the call are evaluated *)
      Some (setTask i (TFetch (address s)) (emit (ReadAddress i (address s)) s))
  | Some (TFetch a) =>
      (* lines 223-241 *)
      let s' := emit (Requested i (apiAllURL a)) s in
      match httpGet env i (apiAllURL a) with
      | TransportErr e => Some (setTask i (TResult None) (logIt (LogCaching a e) s'))
      | DecodeErr e => Some (setTask i (TResult None) (logIt (LogCaching a e) s'))
      | RemoteErr msg => Some (setTask i (TResult None) (logIt (LogRemote a msg) s'))
      | Decoded data => Some (setTask i (TRange a (rangeOrder env data) []) s')
      end
  | Some (TRange a [] ns) =>
      (* line 285 *)
      Some (setTask i (TResult (Some ns)) s)
  | Some (TRange a ((source, remoteNodes) :: todo) ns) =>
      (* lines 254-264 and, on a hit, 278-283 *)
      let replacedLocal := false in
      let source := effectiveSource replacedLocal a source in
      match lookupSource source (sourceToID s) with
      | Some id =>
          Some (setTask i (TRange a todo (ns ++ stampAll id remoteNodes))
                  (emit (Resolved i source id) s))
      | None => Some (setTask i (TMiss a source remoteNodes todo ns) s)
      end
  | Some (TMiss a source remoteNodes todo ns) =>
      (* lines 267-283 *)
      let (id, reg) := allocSource source (sourceToID s) in
      Some (setTask i (TRange a todo (ns ++ stampAll id remoteNodes))
              (logIt (LogDiscovered source id)
                 (emit (Resolved i source id) (setSourceToID reg s))))
  | Some (TResult None) =>
      (* lines 204-206 *)
      Some (setTask i TSignal s)
  | Some (TResult (Some ns)) =>
      (* lines 210-212 *)
      Some (setTask i TSignal (emit (Appended i ns) (setNodes (nodes s ++ ns) s)))
  | Some TSignal =>
      (* line 173 meets line 187 *)
      match mainPC s with
      | MWait (S k) => Some (setTask i TDone (setMain (MWait k) (emit (Signalled i) s)))
      | _ => None
      end
  | Some TDone => None
  end.

Definition step (a : actor) (s : State) : option State :=
  match a with
  | Main => stepMain s
  | Task i => stepTask i s
  end.

(** Running a schedule; [None] when it asks a blocked or finished
    goroutine to move. *)
Fixpoint run (schedule : list actor) (s : State) : option State :=
  match schedule with
  | [] => Some s
  | a :: rest =>
      match step a s with
      | Some s' => run rest s'
      | None => None
      end
  end.

Definition GetAllFromChildMaps (schedule : list actor) : option State :=
  run schedule initial.

End Pass.

(** ** Observations on runs *)

(** The argument tuples of the [Exec] calls in a database log. *)
Definition execArgs (log : list dbEvent) : list (list sqlArg) :=
  omap (λ ev, match ev with EvExec _ args => Some args | _ => None end) log.

(** The rows [CacheNodes] is to write for [nodes], when the clock has
    been read [t] times before: a node without a retrieval time takes
    the next reading. *)
Fixpoint batchRows (env : Env) (t : nat) (nodes : list Node) : list (list sqlArg) :=
  match nodes with
  | [] => []
  | node :: rest =>
      if RetrieveTime node =? 0
      then cacheNodesArgs node (clock env t) :: batchRows env (S t) rest
      else cacheNodesArgs node (RetrieveTime node) :: batchRows env t rest
  end.

(** How many of [nodes] carry no retrieval time. *)
Definition unstamped (nodes : list Node) : nat :=
  length (filter (λ node, RetrieveTime node = 0) nodes).

(** Projections of the trace of a pass. *)
Definition signalled (tr : list event) : list nat :=
  omap (λ ev, match ev with Signalled i => Some i | _ => None end) tr.
Definition spawned (tr : list event) : list nat :=
  omap (λ ev, match ev with Spawned i => Some i | _ => None end) tr.
Definition appended (tr : list event) : list (list Node) :=
  omap (λ ev, match ev with Appended _ ns => Some ns | _ => None end) tr.
Definition contributions (tr : list event) : list (nat * list Node) :=
  omap (λ ev, match ev with Appended i ns => Some (i, ns) | _ => None end) tr.
Definition appendedBy (tr : list event) : list nat :=
  omap (λ ev, match ev with Appended i _ => Some i | _ => None end) tr.
Definition requested (tr : list event) : list (nat * string) :=
  omap (λ ev, match ev with Requested i url => Some (i, url) | _ => None end) tr.
Definition resolved (tr : list event) : list (string * Z) :=
  omap (λ ev, match ev with Resolved _ source id => Some (source, id) | _ => None end) tr.

Definition isDecoded (r : httpResult) : bool :=
  match r with Decoded _ => true | _ => false end.

(** [range] over a Go map visits every entry once, in an order of its
    own choosing. *)
Definition rangeValid (env : Env) : Prop :=
  ∀ data, rangeOrder env data ≡ₚ map_to_list data.

(** The largest value of Go's [int]. *)
Definition maxInt : Z := 2 ^ (intSize - 1) - 1.

(** ** Example inputs *)

Module Examples.

Definition ip1 : IP := [Byte.xc0; Byte.x00; Byte.x02; Byte.x01].
Definition ip2 : IP := [Byte.xc0; Byte.x00; Byte.x02; Byte.x02].

Definition node1 : Node :=
  {| Addr := ip1; OwnerName := "alice"; OwnerEmail := "alice@example.org";
     Latitude := Float64frombits 4635400285215260672;
     Longitude := Float64frombits 4632233691727265792;
     Status := 1; SourceID := 0; RetrieveTime := 0 |}.

Definition node2 : Node :=
  {| Addr := ip2; OwnerName := "bob"; OwnerEmail := "bob@example.org";
     Latitude := Float64frombits 4630826316843712512;
     Longitude := Float64frombits 4617315517961601024;
     Status := 2; SourceID := 7; RetrieveTime := 1400000000 |}.

(** a store that accepts everything and has an empty [cached_maps] *)
Definition okPrepare : list dbEvent → string → option error := λ _ _, None.
Definition okExec : list dbEvent → string → list sqlArg → option error :=
  λ _ _ _, None.
Definition noRows : list dbEvent → string → queryResult := λ _ _, QueryRows [].

(** a store whose second insert of a pass fails *)
Definition failSecondExec : list dbEvent → string → list sqlArg → option error :=
  λ log _ _, if decide (length (execArgs log) = 1%nat)
             then Some (ErrOther "disk full") else None.

Definition unixClock : nat → Z := λ t, 1414750000 + Z.of_nat t.

Definition walk (m : gmap string (list Node)) : list (string * list Node) :=
  map_to_list m.

(** every remote lists one node, under the origin c.example *)
Definition remotesListC : nat → string → httpResult :=
  λ _ _, Decoded {[ "c.example" := [node2] ]}.

(** a.example lists a node of c.example; b.example lists one of
    c.example and one of d.example *)
Definition remotesListCD : nat → string → httpResult :=
  λ _ url, if String.eqb url "http://a.example/api/all"
           then Decoded {[ "c.example" := [node2] ]}
           else Decoded (<[ "d.example" := [node1] ]> {[ "c.example" := [node2] ]}).

(** every remote lists two nodes under "local" *)
Definition remotesLocal : nat → string → httpResult :=
  λ _ _, Decoded {[ "local" := [node1; node2] ]}.

(** a.example is down, b.example answers *)
Definition remotesOneDown : nat → string → httpResult :=
  λ _ url, if String.eqb url "http://a.example/api/all"
           then TransportErr (ErrOther "connection refused")
           else Decoded {[ "local" := [node1] ]}.

Definition envListC : Env :=
  mkEnv okPrepare okExec noRows unixClock remotesListC walk.
Definition envListCD : Env :=
  mkEnv okPrepare okExec noRows unixClock remotesListCD walk.
Definition envLocal : Env :=
  mkEnv okPrepare okExec noRows unixClock remotesLocal walk.
Definition envOneDown : Env :=
  mkEnv okPrepare okExec noRows unixClock remotesOneDown walk.
Definition envFailSecond : Env :=
  mkEnv okPrepare failSecondExec noRows unixClock remotesLocal walk.

Definition twoRemotes : list string := ["a.example"; "b.example"].

(** Each task runs to completion as soon as it is started. *)
Definition oneAfterTheOther : list actor :=
  [Main; Main; Task 0; Task 0; Task 0; Task 0; Task 0; Task 0;
   Main; Task 1; Task 1; Task 1; Task 1; Task 1;
   Main; Task 0; Task 1; Main; Main]%nat.

(** Both tasks are started before either runs. *)
Definition spawnThenRun : list actor :=
  [Main; Main; Main; Main;
   Task 0; Task 1; Task 0; Task 1]%nat.

(** The same, carried on to the end of the pass. *)
Definition spawnThenRunToEnd : list actor :=
  spawnThenRun ++
  [Task 0; Task 0; Task 0; Task 0;
   Task 1; Task 1; Task 1;
   Task 0; Task 1; Main; Main]%nat.

(** One task after the other, the first of which finds its remote down. *)
Definition oneDown : list actor :=
  [Main; Main; Task 0; Task 0; Task 0;
   Main; Task 1; Task 1; Task 1; Task 1; Task 1; Task 1;
   Main; Task 0; Task 1; Main; Main]%nat.

(** Both tasks look c.example up before either of them registers it;
    the second then comes to d.example. *)
Definition bothMiss : list actor :=
  [Main; Main; Task 0; Main; Task 1; Main;
   Task 0; Task 1;          (* both fetch *)
   Task 0; Task 1;          (* both look c.example up, and miss *)
   Task 0; Task 1;          (* both register it *)
   Task 1; Task 1;          (* d.example: a miss, a registration *)
   Task 0; Task 1; Task 0; Task 1; Task 0; Task 1;
   Main; Main]%nat.

End Examples.

(** ** Invariants of a pass *)

Definition committed (tr : list event) : list (list Node) :=
  omap (λ ev, match ev with CommitStarted batch => Some batch | _ => None end) tr.

(** The failure of a request has been reported to the logger. *)
Definition failureLogged (address : string) (r : httpResult) (log : list logEvent) : Prop :=
  match r with
  | TransportErr e | DecodeErr e => LogCaching address e ∈ log
  | RemoteErr msg => LogRemote address msg ∈ log
  | Decoded _ => False
  end.

(** The decoded lists of [entries], each stamped with the ID at its
    position in [ids], one after the other. *)
Definition stamped (ids : list Z) (entries : list (string * list Node)) : list Node :=
  concat (zip_with stampAll ids entries.*2).


Section Invariants.
Context (env : Env) (addresses : list string).

Definition reachable (s : State) : Prop :=
  ∃ schedule, GetAllFromChildMaps env addresses schedule = Some s.

(** What [Db.GetMapSourceToID()] gives at the start of the pass. *)
Definition loadErr : option error := (GetMapSourceToID env world0).1.2.
Definition loadedWorld : World := (GetMapSourceToID env world0).2.

(** Counting at the join: tasks started, signals received. *)
Definition barrierInv (s : State) : Prop :=
  NoDup (signalled (trace s))
  ∧ (∀ i, i ∈ signalled (trace s) → tasks s !! i = Some TDone)
  ∧ spawned (trace s) = seq 0 (length (tasks s))
  ∧ match mainPC s with
    | MLoad => tasks s = [] ∧ trace s = []
    | MSpawn rest =>
        ∃ started, addresses = started ++ rest
          ∧ length (tasks s) = length started
          ∧ signalled (trace s) = []
    | MWait k =>
        length (tasks s) = length addresses
        ∧ (length (signalled (trace s)) + k)%nat = length addresses
    | MCommit =>
        length (tasks s) = length addresses
        ∧ length (signalled (trace s)) = length addresses
    | MReturned _ =>
        (tasks s = [] ∧ trace s = [])
        ∨ (length (tasks s) = length addresses
           ∧ length (signalled (trace s)) = length addresses)
    end.

(** Where the result of the pass comes from. *)
Definition passInv (s : State) : Prop :=
  nodes s = concat (appended (trace s))
  ∧ match mainPC s with
    | MLoad => world s = world0 ∧ committed (trace s) = []
    | MSpawn _ | MWait _ | MCommit =>
        loadErr = None ∧ world s = loadedWorld ∧ committed (trace s) = []
    | MReturned err =>
        (loadErr = err ∧ err ≠ None ∧ nodes s = [] ∧ world s = loadedWorld
         ∧ committed (trace s) = [])
        ∨ (loadErr = None
           ∧ committed (trace s) = [nodes s]
           ∧ err = (CacheNodes env (nodes s) loadedWorld).1
           ∧ world s = (CacheNodes env (nodes s) loadedWorld).2)
    end.

(** What a task has asked of its remote, by where it stands; [rq] are
    the requests made so far. *)
Definition taskInv (rq : list (nat * string)) (i : nat) (pc : taskPc) : Prop :=
  match pc with
  | TStart | TFetch _ => ∀ u, (i, u) ∉ rq
  | TRange a _ _ | TMiss a _ _ _ _ =>
      (i, apiAllURL a) ∈ rq ∧ isDecoded (httpGet env i (apiAllURL a)) = true
  | TResult (Some _) =>
      ∃ u, (i, u) ∈ rq ∧ isDecoded (httpGet env i u) = true
  | TResult None | TSignal | TDone => True
  end.

(** Every task makes one request, and only tasks whose request was
    answered with a payload add to the merged slice. *)
Definition fetchInv (s : State) : Prop :=
  (∀ i pc, tasks s !! i = Some pc → taskInv (requested (trace s)) i pc)
  ∧ (∀ i u, (i, u) ∈ requested (trace s) → (i < length (tasks s))%nat)
  ∧ (∀ i u u', (i, u) ∈ requested (trace s) → (i, u') ∈ requested (trace s) → u = u')
  ∧ (∀ i, i ∈ appendedBy (trace s) →
       ∃ u, (i, u) ∈ requested (trace s) ∧ isDecoded (httpGet env i u) = true)
  ∧ (∀ i u, (i, u) ∈ requested (trace s) → isDecoded (httpGet env i u) = false →
       ∃ a, u = apiAllURL a ∧ failureLogged a (httpGet env i u) (logs s)).



(** [a] is the address of the iteration that started task [i], or of a
    later one. *)
Definition laterAddress (i : nat) (a : string) : Prop :=
  ∃ j, (i ≤ j)%nat ∧ addresses !! j = Some a.

(** What the tasks can see of the loop variable. *)
Definition addressInv (s : State) : Prop :=
  (∀ i, (i < length (tasks s))%nat → laterAddress i (address s))
  ∧ (∀ i a, tasks s !! i = Some (TFetch a) → laterAddress i a)
  ∧ (∀ i u, (i, u) ∈ requested (trace s) →
       ∃ a, laterAddress i a ∧ u = apiAllURL a).
End Invariants.

(** ** The reverse table, single lookups and the grouping by source *)

(** The SELECT of [GetMapIDToSource], cache.go lines 86-87. *)
Definition idToSourceSQL : string :=
"SELECT id,hostname
FROM cached_maps;".

(** The SELECT of [FindSourceMap], cache.go lines 110-112. *)
Definition findSourceSQL : string :=
"SELECT hostname
FROM cached_maps
WHERE id=?".

(** cache.go lines 82-83 *)
Definition seedIDs : gmap Z string := {[ 0 := "local" ]}.

(** cache.go lines 95-102; a row carries the two values scanned. *)
Fixpoint scanIDRows (rows : list scanResult) (IDToSource : gmap Z string)
  : gmap Z string * option error :=
  match rows with
  | [] => (IDToSource, None)
  | ScanErr e :: _ => (IDToSource, Some e)
  | ScanOk hostname id :: rest => scanIDRows rest (<[id := hostname]> IDToSource)
  end.

(** [hostname := idSources[node.SourceID]]: a missing key gives the
    empty string. *)
Definition hostOf (idSources : gmap Z string) (node : Node) : string :=
  default "" (idSources !! SourceID node).

(** The loop of [CacheFormatNodes], cache.go lines 128-136; the slice of
    a hostname not met before is empty. *)
Fixpoint formatRange (idSources : gmap Z string) (nodes : list Node)
    (sourceMaps : gmap string (list Node)) : gmap string (list Node) :=
  match nodes with
  | [] => sourceMaps
  | node :: rest =>
      let hostname := hostOf idSources node in
      let sourcemapNodes := default [] (sourceMaps !! hostname) in
      formatRange idSources rest (<[hostname := sourcemapNodes ++ [node]]> sourceMaps)
  end.

Section ReverseRegistry.
Context (env : Env).

Definition GetMapIDToSource : M (gmap Z string * option error) :=
  (let IDToSource := seedIDs in
   do q <- Query env idToSourceSQL;
   match q with
   | QueryErr ErrNoRows => ret (IDToSource, None)
   | QueryErr e => ret (IDToSource, Some e)
   | QueryRows rows => ret (scanIDRows rows IDToSource)
   end)%io.

(** [CacheFormatNodes]; the map returned is nil ([None]) when the table
    could not be read. *)
Definition CacheFormatNodes (nodes : list Node)
  : M (option (gmap string (list Node)) * option error) :=
  (do r <- GetMapIDToSource;
   match r.2 with
   | Some e => ret (None, Some e)
   | None => ret (Some (formatRange r.1 nodes ∅), None)
   end)%io.

End ReverseRegistry.

(** What [db.QueryRow(...).Scan(&source)] gives: an error
    ([sql.ErrNoRows] when no row matches), or the hostname. *)
Inductive rowResult :=
| RowErr (e : error)
| RowHostname (hostname : string).

Section FindSource.
Context (queryRow : list dbEvent → string → list sqlArg → rowResult).

(** [FindSourceMap] *)
Definition FindSourceMap (id : Z) : M (string * option error) :=
  if id =? 0 then ret ("local", None)
  else λ w,
    (match queryRow (dbLog w) findSourceSQL [ArgInt id] with
     | RowErr e => ("", Some e)
     | RowHostname hostname => (hostname, None)
     end,
     logDb (EvQuery findSourceSQL) w).

End FindSource.

(** Rows that all scan. *)
Definition okRows (table : list (string * Z)) : list scanResult :=
  map (λ row, ScanOk row.1 row.2) table.

(** The IDs of a registry do not exceed its size. *)
Definition denseIDs (reg : gmap string Z) : Prop :=
  ∀ h id, reg !! h = Some id → 0 ≤ id ≤ Z.of_nat (size reg).

(** No two hostnames share an ID. *)
Definition uniqueIDs (reg : gmap string Z) : Prop :=
  ∀ h1 h2 id, reg !! h1 = Some id → reg !! h2 = Some id → h1 = h2.

(** The statements a pass sends to the database. *)
Definition passEvent (ev : dbEvent) : Prop :=
  match ev with
  | EvQuery sql => sql = sourceToIDSQL
  | EvPrepare sql | EvClose sql => sql = cacheNodesSQL
  | EvExec sql args => sql = cacheNodesSQL ∧ length args = 7%nat
  end.

Section MoreInvariants.
Context (env : Env).

(** The registry as [Db.GetMapSourceToID()] returns it at the start of
    the pass. *)
Definition loadedRegistry : gmap string Z := (GetMapSourceToID env world0).1.1.

(** The entries loaded are still there, and no task is about to
    register a hostname that was loaded. *)
Definition loadedInv (s : State) : Prop :=
  mainPC s = MLoad
  ∨ (loadedRegistry ⊆ sourceToID s
     ∧ ∀ i a source remoteNodes todo ns,
         tasks s !! i = Some (TMiss a source remoteNodes todo ns) →
         loadedRegistry !! source = None).

End MoreInvariants.

Module MoreExamples.

Definition table : list (string * Z) := [("a.example", 1); ("b.example", 2)].

Definition tableRows : list dbEvent → string → queryResult :=
  λ _ _, QueryRows (okRows table).

Definition brokenRows : list dbEvent → string → queryResult :=
  λ _ _, QueryRows [ScanOk "a.example" 1; ScanErr (ErrOther "bad column");
                    ScanOk "b.example" 2].

Definition envTable : Env :=
  mkEnv Examples.okPrepare Examples.okExec tableRows Examples.unixClock
        Examples.remotesLocal Examples.walk.

Definition envBroken : Env :=
  mkEnv Examples.okPrepare Examples.okExec brokenRows Examples.unixClock
        Examples.remotesLocal Examples.walk.

Definition node3 : Node :=
  {| Addr := Examples.ip1; OwnerName := "carol"; OwnerEmail := "carol@example.org";
     Latitude := Float64frombits 4630826316843712512;
     Longitude := Float64frombits 4617315517961601024;
     Status := 1; SourceID := 9; RetrieveTime := 1400000001 |}.

(** one node of a.example, one of b.example, one of this server, one
    whose source the table does not hold *)
Definition mixedNodes : list Node :=
  [setSourceID 2 Examples.node1; setSourceID 1 Examples.node2;
   Examples.node1; node3].

(** a database that finds the row of an ID in [table] *)
Definition rowOfTable : list dbEvent → string → list sqlArg → rowResult :=
  λ _ _ args,
    match args with
    | [ArgInt id] =>
        match find (λ row, bool_decide (row.2 = id)) table with
        | Some row => RowHostname row.1
        | None => RowErr ErrNoRows
        end
    | _ => RowErr (ErrOther "arguments")
    end.

(** the state a schedule leads to *)
Definition runOf (env : Env) (addresses : list string) (schedule : list actor) : State :=
  default initial (GetAllFromChildMaps env addresses schedule).

(** [Examples.oneDown] up to the commit *)
Definition oneDownToCommit : list actor := take 16 Examples.oneDown.

End MoreExamples.

(** * Properties *)

(** ** The two INSERT statements *)

(** C9: [CacheNode] and [CacheNodes] name different columns: the first
    has [expiration] and lacks [source] and [retrieved], the second the
    reverse; and [CacheNode] names six columns for seven placeholders,
    while [CacheNodes] names seven for seven. *)
Theorem insert_columns_mismatch :
  SQL.columns cacheNodeSQL
    = ["address"; "owner"; "lat"; "lon"; "status"; "expiration"]
  ∧ SQL.columns cacheNodesSQL
    = ["address"; "owner"; "lat"; "lon"; "status"; "source"; "retrieved"]
  ∧ (("expiration" ∈ SQL.columns cacheNodeSQL)
     ∧ ("expiration" ∉ SQL.columns cacheNodesSQL))
  ∧ (("source" ∉ SQL.columns cacheNodeSQL)
     ∧ ("retrieved" ∉ SQL.columns cacheNodeSQL)
     ∧ ("source" ∈ SQL.columns cacheNodesSQL)
     ∧ ("retrieved" ∈ SQL.columns cacheNodesSQL))
  ∧ (length (SQL.columns cacheNodeSQL) = 6%nat
     ∧ SQL.placeholders cacheNodeSQL = 7%nat)
  ∧ length (SQL.columns cacheNodesSQL) = SQL.placeholders cacheNodesSQL.
Proof.
  assert (H1 : SQL.columns cacheNodeSQL
    = ["address"; "owner"; "lat"; "lon"; "status"; "expiration"])
    by (vm_compute; reflexivity).
  assert (H2 : SQL.columns cacheNodesSQL
    = ["address"; "owner"; "lat"; "lon"; "status"; "source"; "retrieved"])
    by (vm_compute; reflexivity).
  rewrite H1, H2.
  repeat split; try (vm_compute; reflexivity);
    (refine (bool_decide_unpack _ _); vm_compute; exact I).
Qed.

(** ** CacheNode *)

Section CacheNodeFacts.
Context (env : Env).

Lemma CacheNode_unfold node expiry w :
  CacheNode env node expiry w =
    match prepareErr env (dbLog w) cacheNodeSQL with
    | Some e => (Some e, logDb (EvPrepare cacheNodeSQL) w)
    | None =>
        (execErr env (dbLog w ++ [EvPrepare cacheNodeSQL]) cacheNodeSQL
           (cacheNodeArgs node),
         logDb (EvClose cacheNodeSQL)
           (logDb (EvExec cacheNodeSQL (cacheNodeArgs node))
              (logDb (EvPrepare cacheNodeSQL) w)))
    end.
Proof.
  unfold CacheNode, bind, Prepare, Exec, Close, ret; simpl.
  destruct (prepareErr env (dbLog w) cacheNodeSQL); reflexivity.
Qed.

(** C10: [CacheNode] does not depend on [expiry]: for any two values
    the result and the database traffic are the same, the statement
    prepared is [cacheNodeSQL] and the tuple executed is
    [cacheNodeArgs node], in which [node.SourceID] stands at the
    position of the [status] column and [node.Status] at that of
    [expiration]. *)
Theorem CacheNode_ignores_expiry (node : Node) (e1 e2 : Z) (w : World) :
  CacheNode env node e1 w = CacheNode env node e2 w
  ∧ (dbLog (CacheNode env node e1 w).2 = dbLog w ++ [EvPrepare cacheNodeSQL]
     ∨ dbLog (CacheNode env node e1 w).2
       = dbLog w ++ [EvPrepare cacheNodeSQL;
                     EvExec cacheNodeSQL (cacheNodeArgs node);
                     EvClose cacheNodeSQL])
  ∧ (SQL.columnOf cacheNodeSQL 4 = Some "status"
     ∧ cacheNodeArgs node !! 4%nat = Some (ArgInt (SourceID node)))
  ∧ (SQL.columnOf cacheNodeSQL 5 = Some "expiration"
     ∧ cacheNodeArgs node !! 5%nat = Some (ArgStatus (Status node))).
Proof.
  split; [reflexivity|].
  split.
  - rewrite CacheNode_unfold.
    destruct (prepareErr env (dbLog w) cacheNodeSQL); simpl.
    + now left.
    + right. now rewrite <- !app_assoc.
  - repeat split; vm_compute; reflexivity.
Qed.

End CacheNodeFacts.

(** ** CacheNodes *)

Section CacheNodesFacts.
Context (env : Env).

Lemma execArgs_app l1 l2 : execArgs (l1 ++ l2) = execArgs l1 ++ execArgs l2.
Proof. apply omap_app. Qed.

Lemma cacheOne_unfold node w :
  cacheOne env node w =
    if RetrieveTime node =? 0
    then (execErr env (dbLog w) cacheNodesSQL (cacheNodesArgs node (clock env (ticks w))),
          logDb (EvExec cacheNodesSQL (cacheNodesArgs node (clock env (ticks w)))) (tick w))
    else (execErr env (dbLog w) cacheNodesSQL (cacheNodesArgs node (RetrieveTime node)),
          logDb (EvExec cacheNodesSQL (cacheNodesArgs node (RetrieveTime node))) w).
Proof.
  unfold cacheOne, retrievedOf, bind.
  destruct (RetrieveTime node =? 0); reflexivity.
Qed.

Lemma cacheRange_cons node rest w :
  cacheRange env (node :: rest) w =
    match cacheOne env node w with
    | (Some e, w1) => (Some e, w1)
    | (None, w1) => cacheRange env rest w1
    end.
Proof.
  simpl. unfold bind at 1.
  destruct (cacheOne env node w) as [[e|] w1]; reflexivity.
Qed.

Lemma cacheRange_app pre rest w :
  cacheRange env (pre ++ rest) w =
    match cacheRange env pre w with
    | (Some e, w1) => (Some e, w1)
    | (None, w1) => cacheRange env rest w1
    end.
Proof.
  revert w. induction pre as [|node pre IH]; intros w.
  - reflexivity.
  - rewrite <- app_comm_cons, !cacheRange_cons.
    destruct (cacheOne env node w) as [[e|] w1]; [reflexivity|apply IH].
Qed.

Lemma unstamped_cons node rest :
  unstamped (node :: rest) =
    if RetrieveTime node =? 0 then S (unstamped rest) else unstamped rest.
Proof.
  unfold unstamped. rewrite filter_cons.
  destruct (Z.eqb_spec (RetrieveTime node) 0) as [E|E];
    destruct (decide (RetrieveTime node = 0)); try contradiction; reflexivity.
Qed.


Lemma batchRows_length nodes : ∀ t, length (batchRows env t nodes) = length nodes.
Proof.
  induction nodes as [|n rest IH]; intros t; simpl; [reflexivity|].
  destruct (RetrieveTime n =? 0); simpl; now rewrite IH.
Qed.

(** What the loop of [CacheNodes] leaves in the log: the rows of the
    first [k] nodes and nothing else, [k] being the whole batch when no
    insert failed. *)
Lemma cacheRange_log nodes : ∀ w err w',
  cacheRange env nodes w = (err, w') →
  ∃ k, (k ≤ length nodes)%nat
    ∧ dbLog w' = dbLog w
        ++ map (EvExec cacheNodesSQL) (take k (batchRows env (ticks w) nodes))
    ∧ ticks w' = (ticks w + unstamped (take k nodes))%nat
    ∧ (err = None → k = length nodes).
Proof.
  induction nodes as [|n rest IH]; intros w err w' H.
  - injection H as <- <-. exists 0%nat. simpl.
    rewrite app_nil_r. unfold unstamped; simpl. repeat split; lia.
  - rewrite cacheRange_cons, cacheOne_unfold in H. simpl batchRows.
    destruct (Z.eqb_spec (RetrieveTime n) 0) as [E|E].
    + destruct (execErr env (dbLog w) cacheNodesSQL _) as [e|].
      * injection H as <- <-. exists 1%nat. simpl.
        rewrite unstamped_cons. rewrite (proj2 (Z.eqb_eq _ _) E).
        unfold unstamped; simpl. repeat split; try lia; try discriminate.
      * apply IH in H as (k & Hk & Hlog & Ht & Hall).
        exists (S k). simpl in *. rewrite unstamped_cons, (proj2 (Z.eqb_eq _ _) E).
        rewrite Hlog, <- app_assoc. repeat split; try lia; auto.
    + destruct (execErr env (dbLog w) cacheNodesSQL _) as [e|].
      * injection H as <- <-. exists 1%nat. simpl.
        rewrite unstamped_cons. rewrite (proj2 (Z.eqb_neq _ _) E).
        unfold unstamped; simpl. repeat split; try lia; try discriminate.
      * apply IH in H as (k & Hk & Hlog & Ht & Hall).
        exists (S k). simpl in *. rewrite unstamped_cons, (proj2 (Z.eqb_neq _ _) E).
        rewrite Hlog, <- app_assoc. repeat split; try lia; auto.
Qed.

Lemma execArgs_map_EvExec sql rows :
  execArgs (map (EvExec sql) rows) = rows.
Proof. induction rows as [|r rows IH]; simpl; [reflexivity|]. now f_equal. Qed.

Lemma CacheNodes_unfold nodes w :
  CacheNodes env nodes w =
    match prepareErr env (dbLog w) cacheNodesSQL with
    | Some e => (Some e, logDb (EvPrepare cacheNodesSQL) w)
    | None =>
        match cacheRange env nodes (logDb (EvPrepare cacheNodesSQL) w) with
        | (Some e, w1) => (Some e, w1)
        | (None, w1) => (None, logDb (EvClose cacheNodesSQL) w1)
        end
    end.
Proof.
  unfold CacheNodes, bind, Prepare; simpl.
  destruct (prepareErr env (dbLog w) cacheNodesSQL); [reflexivity|].
  destruct (cacheRange env nodes _) as [[e|] w1]; reflexivity.
Qed.

(** The inserts of one [CacheNodes] call: a prefix of the batch's rows,
    the whole of it when the call returns nil. *)
Lemma CacheNodes_execs nodes w :
  ∃ k, (k ≤ length nodes)%nat
    ∧ execArgs (dbLog (CacheNodes env nodes w).2)
      = execArgs (dbLog w) ++ take k (batchRows env (ticks w) nodes)
    ∧ ticks (CacheNodes env nodes w).2 = (ticks w + unstamped (take k nodes))%nat
    ∧ ((CacheNodes env nodes w).1 = None → k = length nodes).
Proof.
  rewrite CacheNodes_unfold.
  destruct (prepareErr env (dbLog w) cacheNodesSQL) as [e|].
  - exists 0%nat. simpl. rewrite execArgs_app, !app_nil_r.
    unfold unstamped; simpl. repeat split; try lia; try discriminate.
  - destruct (cacheRange env nodes _) as [err w1] eqn:H.
    apply cacheRange_log in H as (k & Hk & Hlog & Ht & Hall).
    simpl in Hlog, Ht.
    exists k. destruct err as [e|]; simpl.
    + rewrite Hlog, !execArgs_app, execArgs_map_EvExec. simpl.
      rewrite app_nil_r. repeat split; auto; try discriminate.
    + rewrite Hlog, !execArgs_app, execArgs_map_EvExec. simpl.
      rewrite !app_nil_r. repeat split; auto.
Qed.

End CacheNodesFacts.

Section CacheNodesClaims.
Context (env : Env).


(** X12: when [CacheNodes] returns nil, every node of the batch was
    inserted, once and in order. *)
Lemma CacheNodes_all_written nodes w :
  (CacheNodes env nodes w).1 = None →
  execArgs (dbLog (CacheNodes env nodes w).2)
    = execArgs (dbLog w) ++ batchRows env (ticks w) nodes.
Proof.
  intros Hok.
  destruct (CacheNodes_execs env nodes w) as (k & _ & Hlog & _ & Hall).
  rewrite Hlog, (Hall Hok), <- (batchRows_length env nodes (ticks w)).
  now rewrite firstn_all.
Qed.

(** A store that accepts every statement makes [CacheNodes] succeed. *)
Lemma cacheRange_accepting nodes : ∀ w,
  (∀ log args, execErr env log cacheNodesSQL args = None) →
  (cacheRange env nodes w).1 = None.
Proof.
  induction nodes as [|n rest IH]; intros w Hacc; [reflexivity|].
  rewrite cacheRange_cons, cacheOne_unfold.
  destruct (RetrieveTime n =? 0); rewrite Hacc; now apply IH.
Qed.

Lemma CacheNodes_accepting nodes w :
  (∀ log, prepareErr env log cacheNodesSQL = None) →
  (∀ log args, execErr env log cacheNodesSQL args = None) →
  (CacheNodes env nodes w).1 = None.
Proof.
  intros Hp He. rewrite CacheNodes_unfold, Hp.
  pose proof (cacheRange_accepting nodes (logDb (EvPrepare cacheNodesSQL) w) He) as H.
  destruct (cacheRange env nodes _) as [[e|] w1]; [discriminate H|reflexivity].
Qed.

(** C6: when the inserts of [pre] succeed and that of [node] fails with
    [e], [CacheNodes (pre ++ node :: post)] returns [e] in the world
    the failing insert left: the log ends with that insert, the number
    of inserts issued is that of [pre] plus one, none for [post]; and
    the pass, whose last step is this call, returns [e]. *)
Theorem CacheNodes_stops_at_failure
    (pre : list Node) (node : Node) (post : list Node)
    (e : error) (w w1 w2 : World) :
  prepareErr env (dbLog w) cacheNodesSQL = None →
  cacheRange env pre (logDb (EvPrepare cacheNodesSQL) w) = (None, w1) →
  cacheOne env node w1 = (Some e, w2) →
  CacheNodes env (pre ++ node :: post) w = (Some e, w2)
  ∧ (∃ retrieved,
        dbLog w2 = dbLog w1 ++ [EvExec cacheNodesSQL (cacheNodesArgs node retrieved)])
  ∧ length (execArgs (dbLog w2))
    = (length (execArgs (dbLog w)) + length pre + 1)%nat
  ∧ ∀ addresses s,
      mainPC s = MCommit → nodes s = pre ++ node :: post → world s = w →
      ∃ s', step env addresses Main s = Some s'
            ∧ mainPC s' = MReturned (Some e) ∧ world s' = w2.
Proof.
  intros Hprep Hpre Hnode.
  assert (Hcall : CacheNodes env (pre ++ node :: post) w = (Some e, w2)).
  { rewrite CacheNodes_unfold, Hprep, cacheRange_app, Hpre, cacheRange_cons, Hnode.
    reflexivity. }
  split; [exact Hcall|]. split; [|split].
  - rewrite cacheOne_unfold in Hnode.
    destruct (RetrieveTime node =? 0); injection Hnode as _ <-; eexists; reflexivity.
  - apply cacheRange_log in Hpre as (k & _ & Hlog & _ & Hall).
    specialize (Hall eq_refl). subst k. simpl in Hlog.
    rewrite <- (batchRows_length env pre (ticks w)), firstn_all in Hlog.
    rewrite cacheOne_unfold in Hnode.
    destruct (RetrieveTime node =? 0); injection Hnode as _ <-; simpl;
      rewrite Hlog, !execArgs_app, execArgs_map_EvExec, !length_app; simpl;
      rewrite batchRows_length; lia.
  - intros addresses s Hpc Hnodes Hw. simpl. unfold stepMain.
    rewrite Hpc, Hnodes, Hw, Hcall. eexists. repeat split.
Qed.


End CacheNodesClaims.

(** A batch of three against a store whose second insert fails: the
    third node is not inserted and the error comes back. *)
Lemma CacheNodes_stops_at_failure_witness :
  CacheNodes Examples.envFailSecond
    ([Examples.node1] ++ Examples.node2 :: [Examples.node1]) world0
  = (Some (ErrOther "disk full"),
     (cacheOne Examples.envFailSecond Examples.node2
        (cacheRange Examples.envFailSecond [Examples.node1]
           (logDb (EvPrepare cacheNodesSQL) world0)).2).2).
Proof.
  refine (proj1 (CacheNodes_stops_at_failure Examples.envFailSecond
            [Examples.node1] Examples.node2 [Examples.node1]
            (ErrOther "disk full") world0
            (cacheRange Examples.envFailSecond [Examples.node1]
               (logDb (EvPrepare cacheNodesSQL) world0)).2 _ _ _ _)).
  - reflexivity.
  - vm_compute; reflexivity.
  - vm_compute; reflexivity.
Defined.


(** ** The source registry, one caller at a time *)

Lemma wrapInt_small z : - 2 ^ 63 ≤ z < 2 ^ 63 → wrapInt z = z.
Proof.
  intros H. unfold wrapInt, intSize.
  change (2 ^ (64 - 1)) with (2 ^ 63).
  rewrite Z.mod_small; [lia|].
  change (2 ^ 64) with (2 * 2 ^ 63). lia.
Qed.

Lemma resolve_known (source : string) (reg : gmap string Z) id :
  reg !! source = Some id → resolve source reg = (id, reg).
Proof. unfold resolve, lookupSource. now intros ->. Qed.

Lemma resolve_fresh (source : string) (reg : gmap string Z) :
  reg !! source = None →
  resolve source reg
  = (wrapInt (Z.of_nat (size reg) + 1),
     <[source := wrapInt (Z.of_nat (size reg) + 1)]> reg).
Proof. unfold resolve, lookupSource, allocSource. now intros ->. Qed.

(** The ID given to a hostname the registry does not know is its size
    plus one. *)
Lemma resolve_fresh_id (source : string) (reg : gmap string Z) :
  reg !! source = None → Z.of_nat (size reg) < maxInt →
  (resolve source reg).1 = Z.of_nat (size reg) + 1.
Proof.
  intros Hnone Hsize. rewrite (resolve_fresh _ _ Hnone). simpl.
  apply wrapInt_small. unfold maxInt, intSize in Hsize.
  change (2 ^ (64 - 1)) with (2 ^ 63) in Hsize. lia.
Qed.

(** After a resolution the registry holds the ID returned. *)
Lemma resolve_lookup (source : string) (reg : gmap string Z) :
  (resolve source reg).2 !! source = Some (resolve source reg).1.
Proof.
  destruct (reg !! source) as [id|] eqn:H.
  - now rewrite (resolve_known _ _ _ H).
  - rewrite (resolve_fresh _ _ H). simpl. apply lookup_insert_eq.
Qed.

(** X15: resolving a hostname again, with no other caller in between,
    returns the same ID and leaves the registry alone. *)
Lemma resolve_again (source : string) (reg : gmap string Z) :
  resolve source (resolve source reg).2
  = ((resolve source reg).1, (resolve source reg).2).
Proof. apply resolve_known, resolve_lookup. Qed.

(** A resolution does not touch the entries already there. *)
Lemma resolve_preserves (source k : string) (reg : gmap string Z) v :
  reg !! k = Some v → (resolve source reg).2 !! k = Some v.
Proof.
  intros Hk. destruct (reg !! source) as [id|] eqn:H.
  - now rewrite (resolve_known _ _ _ H).
  - rewrite (resolve_fresh _ _ H). simpl.
    rewrite lookup_insert_ne; [exact Hk|]. intros ->. congruence.
Qed.

Lemma resolve_size (source : string) (reg : gmap string Z) :
  (size (resolve source reg).2 ≤ S (size reg))%nat.
Proof.
  destruct (reg !! source) as [id|] eqn:H.
  - rewrite (resolve_known _ _ _ H). simpl. lia.
  - rewrite (resolve_fresh _ _ H). simpl.
    rewrite map_size_insert_None by exact H. lia.
Qed.

(** [local] resolves to its seeded ID without changing the registry. *)
Lemma resolve_local : resolve "local" seedRegistry = (0, seedRegistry).
Proof. apply resolve_known. reflexivity. Qed.

(** C2: with the registry seeded with only [local -> 0], whose size is
    1, the first resolution of an unknown hostname returns 2, and three
    first-time resolutions in a row return 2, 3 and 4: the size plus
    one each time, so that 1 is never handed out. *)
Theorem first_resolutions_from_seed :
  size seedRegistry = 1%nat
  ∧ seedRegistry !! "a.example" = None
  ∧ (resolve "a.example" seedRegistry).1 = 2
  ∧ (resolveAll ["a.example"; "b.example"; "c.example"] seedRegistry).1 = [2; 3; 4].
Proof. repeat split; vm_compute; reflexivity. Qed.

(** ** The fetcher, undisturbed *)

Lemma effectiveSource_local address :
  effectiveSource false address "local" = address.
Proof. reflexivity. Qed.

Lemma rangeData_cons address source remoteNodes rest reg ns :
  rangeData address ((source, remoteNodes) :: rest) reg ns =
    rangeData address rest
      (resolve (effectiveSource false address source) reg).2
      (ns ++ stampAll (resolve (effectiveSource false address source) reg).1 remoteNodes).
Proof.
  simpl. now destruct (resolve (effectiveSource false address source) reg).
Qed.

(** The nodes collected so far are only ever appended to. *)
Lemma rangeData_acc address entries : ∀ reg ns,
  rangeData address entries reg ns
  = (ns ++ (rangeData address entries reg []).1, (rangeData address entries reg []).2).
Proof.
  induction entries as [|[source remoteNodes] rest IH]; intros reg ns.
  - simpl. now rewrite app_nil_r.
  - rewrite !rangeData_cons.
    rewrite (IH _ (ns ++ _)), (IH _ ([] ++ _)). simpl.
    now rewrite <- app_assoc.
Qed.

Lemma rangeData_app address l1 l2 : ∀ reg ns,
  rangeData address (l1 ++ l2) reg ns =
    rangeData address l2 (rangeData address l1 reg ns).2
      (rangeData address l1 reg ns).1.
Proof.
  induction l1 as [|[source remoteNodes] rest IH]; intros reg ns.
  - reflexivity.
  - rewrite <- app_comm_cons, !rangeData_cons. apply IH.
Qed.

Lemma rangeData_preserves address entries : ∀ reg ns (k : string) v,
  reg !! k = Some v → (rangeData address entries reg ns).2 !! k = Some v.
Proof.
  induction entries as [|[source remoteNodes] rest IH]; intros reg ns k v Hk.
  - exact Hk.
  - rewrite rangeData_cons. apply IH. now apply resolve_preserves.
Qed.

Lemma rangeData_size address entries : ∀ reg ns,
  (size (rangeData address entries reg ns).2 ≤ size reg + length entries)%nat.
Proof.
  induction entries as [|[source remoteNodes] rest IH]; intros reg ns.
  - simpl. lia.
  - rewrite rangeData_cons. etransitivity; [apply IH|].
    pose proof (resolve_size (effectiveSource false address source) reg).
    simpl. lia.
Qed.



(** Every entry the loop visits ends up in the result as one block: its
    nodes in their order, all stamped with the ID its origin resolved
    to at that point. *)
Lemma rangeData_block address l1 source remoteNodes l2 reg :
  let before := rangeData address l1 reg [] in
  let r := resolve (effectiveSource false address source) before.2 in
  let after := rangeData address l2 r.2 [] in
  rangeData address (l1 ++ (source, remoteNodes) :: l2) reg []
  = (before.1 ++ stampAll r.1 remoteNodes ++ after.1, after.2).
Proof.
  intros before r after.
  rewrite rangeData_app, rangeData_cons, rangeData_acc.
  fold before. fold r. fold after. now rewrite <- app_assoc.
Qed.

Lemma GetAllFromChildMap_decoded env task address reg out reg' :
  GetAllFromChildMap env task address reg = (Some out, reg') →
  ∃ data, httpGet env task (apiAllURL address) = Decoded data
    ∧ rangeData address (rangeOrder env data) reg [] = (out, reg').
Proof.
  unfold GetAllFromChildMap.
  destruct (httpGet env task (apiAllURL address)) as [e|e|msg|data];
    try discriminate.
  destruct (rangeData address (rangeOrder env data) reg []) as [ns r] eqn:H.
  intros [= <- <-]. now exists data.
Qed.

(** A remote that cannot be reached, whose answer cannot be decoded or
    that reports an error yields nil and leaves the registry alone. *)
Lemma GetAllFromChildMap_failed env task address reg :
  isDecoded (httpGet env task (apiAllURL address)) = false →
  GetAllFromChildMap env task address reg = (None, reg).
Proof.
  unfold GetAllFromChildMap.
  now destruct (httpGet env task (apiAllURL address)).
Qed.

Section FetcherClaims.
Context (env : Env).

Lemma range_entry data (source : string) (remoteNodes : list Node) :
  rangeValid env → data !! source = Some remoteNodes →
  ∃ l1 l2, rangeOrder env data = l1 ++ (source, remoteNodes) :: l2.
Proof.
  intros Hvalid Hin. apply list_elem_of_split.
  rewrite (Hvalid data). now apply elem_of_map_to_list.
Qed.


(** C8: the slice a fetcher returns holds, for each origin of the
    decoded payload, that origin's nodes as one block in their decoded
    order, only their [SourceID] rewritten; and, [SourceID]s apart, it
    is the concatenation of the decoded lists in the order the map was
    walked. *)
Theorem fetcher_keeps_decoded_order
    (task : nat) (address : string) (reg reg' : gmap string Z) (out : list Node) :
  rangeValid env →
  GetAllFromChildMap env task address reg = (Some out, reg') →
  ∃ data, httpGet env task (apiAllURL address) = Decoded data
    ∧ (∀ source remoteNodes, data !! source = Some remoteNodes →
         ∃ id pre post, out = pre ++ map (setSourceID id) remoteNodes ++ post)
    ∧ map (setSourceID 0) out
      = concat (map (λ entry, map (setSourceID 0) entry.2) (rangeOrder env data)).
Proof.
  intros Hvalid Hrun.
  apply GetAllFromChildMap_decoded in Hrun as (data & Hget & Hrange).
  exists data. split; [exact Hget|]. split.
  - intros source remoteNodes Hin.
    destruct (range_entry _ _ _ Hvalid Hin) as (l1 & l2 & Hsplit).
    rewrite Hsplit, rangeData_block in Hrange. injection Hrange as Hout _.
    eexists _, _, _. symmetry. exact Hout.
  - replace out with (rangeData address (rangeOrder env data) reg []).1
      by now rewrite Hrange.
    clear Hrange Hget. generalize reg. generalize (rangeOrder env data).
    induction l as [|[source remoteNodes] rest IH]; intros r; [reflexivity|].
    rewrite rangeData_cons, rangeData_acc. simpl.
    rewrite map_app, IH. f_equal.
    unfold stampAll. rewrite map_map. apply map_ext. now intros [].
Qed.

End FetcherClaims.



(** A remote listing two nodes under one origin: they come back in that
    order. *)
Lemma fetcher_keeps_decoded_order_witness :
  ∃ data, httpGet Examples.envLocal 0 (apiAllURL "a.example") = Decoded data
    ∧ (∀ source remoteNodes, data !! source = Some remoteNodes →
         ∃ id pre post,
           [setSourceID 2 Examples.node1; setSourceID 2 Examples.node2]
           = pre ++ map (setSourceID id) remoteNodes ++ post)
    ∧ map (setSourceID 0) [setSourceID 2 Examples.node1; setSourceID 2 Examples.node2]
      = concat (map (λ entry, map (setSourceID 0) entry.2)
                  (rangeOrder Examples.envLocal data)).
Proof.
  apply (fetcher_keeps_decoded_order Examples.envLocal 0 "a.example" seedRegistry
           (<["a.example" := 2]> seedRegistry)).
  - intros data. reflexivity.
  - vm_compute; reflexivity.
Defined.

(** ** Runs of the pass *)

Section RunFacts.
Context (env : Env) (addresses : list string).


(** A property that holds initially and that every step keeps holds in
    every state a schedule leads to. *)
Lemma run_invariant (P : State → Prop) :
  (∀ a s s', P s → step env addresses a s = Some s' → P s') →
  ∀ schedule s s', P s → run env addresses schedule s = Some s' → P s'.
Proof.
  intros Hstep. induction schedule as [|a sch IH]; intros s s' HP Hrun; simpl in Hrun.
  - now injection Hrun as <-.
  - destruct (step env addresses a s) as [s1|] eqn:Hs; [|discriminate].
    eapply IH; [|exact Hrun]. eapply Hstep; eauto.
Qed.

Lemma reachable_invariant (P : State → Prop) :
  P initial →
  (∀ a s s', P s → step env addresses a s = Some s' → P s') →
  ∀ s, reachable env addresses s → P s.
Proof.
  intros Hinit Hstep s [schedule Hrun].
  eapply run_invariant; eauto.
Qed.

End RunFacts.

Lemma signalled_snoc tr ev :
  signalled (tr ++ [ev])
  = signalled tr ++ match ev with Signalled i => [i] | _ => [] end.
Proof. unfold signalled. rewrite omap_app. now destruct ev. Qed.

Lemma spawned_snoc tr ev :
  spawned (tr ++ [ev])
  = spawned tr ++ match ev with Spawned i => [i] | _ => [] end.
Proof. unfold spawned. rewrite omap_app. now destruct ev. Qed.

Lemma appended_snoc tr ev :
  appended (tr ++ [ev])
  = appended tr ++ match ev with Appended _ ns => [ns] | _ => [] end.
Proof. unfold appended. rewrite omap_app. now destruct ev. Qed.

Lemma requested_snoc tr ev :
  requested (tr ++ [ev])
  = requested tr ++ match ev with Requested i u => [(i, u)] | _ => [] end.
Proof. unfold requested. rewrite omap_app. now destruct ev. Qed.

Lemma appendedBy_snoc tr ev :
  appendedBy (tr ++ [ev])
  = appendedBy tr ++ match ev with Appended i _ => [i] | _ => [] end.
Proof. unfold appendedBy. rewrite omap_app. now destruct ev. Qed.

Lemma committed_snoc tr ev :
  committed (tr ++ [ev])
  = committed tr ++ match ev with CommitStarted b => [b] | _ => [] end.
Proof. unfold committed. rewrite omap_app. now destruct ev. Qed.

(** Taking a step apart into the cases of the code. *)
Ltac step_cases H :=
  unfold step, stepMain, stepTask, allocSource in H;
  repeat case_match; simplify_eq; simpl in *.

Ltac snoc_simpl :=
  rewrite ?signalled_snoc, ?spawned_snoc, ?appended_snoc, ?requested_snoc,
    ?committed_snoc, ?appendedBy_snoc, ?app_nil_r in *.


(** ** The join *)

Lemma done_frame (ts : list taskPc) i pc pc' j :
  ts !! i = Some pc → pc ≠ TDone → ts !! j = Some TDone →
  <[i := pc']> ts !! j = Some TDone.
Proof.
  intros Hi Hpc Hj. destruct (decide (i = j)) as [->|Hne].
  - congruence.
  - now rewrite list_lookup_insert_ne.
Qed.

(** [n] distinct numbers below [n] are all the numbers below [n]. *)
Lemma all_below (l : list nat) (n : nat) :
  NoDup l → (∀ i, i ∈ l → (i < n)%nat) → length l = n → l ≡ₚ seq 0 n.
Proof.
  intros Hnd Hlt Hlen.
  apply submseteq_length_Permutation.
  - apply NoDup_submseteq; [exact Hnd|].
    intros i Hi. apply elem_of_seq. specialize (Hlt i Hi). lia.
  - rewrite length_seq. lia.
Qed.

Section Barrier.
Context (env : Env) (addresses : list string).

Lemma barrierInv_initial : barrierInv addresses initial.
Proof.
  unfold barrierInv; simpl. repeat split; auto using NoDup_nil_2.
  intros i Hi. inversion Hi.
Qed.

(** Once as many signals have come in as there are tasks, every task
    has signalled, once. *)
Lemma barrier_full s :
  barrierInv addresses s →
  length (signalled (trace s)) = length (tasks s) →
  signalled (trace s) ≡ₚ seq 0 (length (tasks s))
  ∧ ∀ i pc, tasks s !! i = Some pc → pc = TDone.
Proof.
  intros (Hnd & Hdone & _ & _) Hlen.
  assert (Hperm : signalled (trace s) ≡ₚ seq 0 (length (tasks s))).
  { apply all_below; auto. intros i Hi. eapply lookup_lt_Some, Hdone, Hi. }
  split; [exact Hperm|].
  intros i pc Hi.
  assert (Hin : i ∈ signalled (trace s)).
  { rewrite Hperm. apply elem_of_seq. apply lookup_lt_Some in Hi. lia. }
  apply Hdone in Hin. congruence.
Qed.

(** After the join no task is left to move. *)
Lemma barrier_closed s i pc :
  barrierInv addresses s →
  match mainPC s with MCommit | MReturned _ | MLoad => True | _ => False end →
  tasks s !! i = Some pc → pc = TDone.
Proof.
  intros Hinv Hpc Hi. pose proof Hinv as (_ & _ & _ & Hm).
  destruct (mainPC s); try contradiction.
  - destruct Hm as [Ht _]. rewrite Ht in Hi. discriminate.
  - destruct Hm as [Hl Hs]. eapply barrier_full; eauto. congruence.
  - destruct Hm as [[Ht _]|[Hl Hs]].
    + rewrite Ht in Hi. discriminate.
    + eapply barrier_full; eauto. congruence.
Qed.

(** A step of a task other than its signal leaves the counts alone. *)
Lemma barrier_frame s s' i pc pc' :
  barrierInv addresses s →
  tasks s !! i = Some pc → pc ≠ TDone →
  mainPC s' = mainPC s →
  tasks s' = <[i := pc']> (tasks s) →
  signalled (trace s') = signalled (trace s) →
  spawned (trace s') = spawned (trace s) →
  barrierInv addresses s'.
Proof.
  intros Hinv Hi Hpc Hm Ht Hsig Hsp.
  pose proof (barrier_closed s i pc Hinv) as Hclosed.
  destruct Hinv as (Hnd & Hdone & Hspawn & Hmain).
  unfold barrierInv. rewrite Hm, Ht, Hsig, Hsp, length_insert.
  split; [exact Hnd|]. split; [|split; [exact Hspawn|]].
  - intros j Hj. eapply done_frame; eauto.
  - destruct (mainPC s); try exact Hmain;
      exfalso; apply Hpc, Hclosed; auto.
Qed.

Lemma barrierInv_step a s s' :
  barrierInv addresses s → step env addresses a s = Some s' →
  barrierInv addresses s'.
Proof.
  intros Hinv Hstep.
  destruct a as [|i].
  - step_cases Hstep; destruct Hinv as (Hnd & Hdone & Hsp & Hpc);
      unfold barrierInv; simpl;
      match goal with H : mainPC s = _ |- _ => rewrite H in Hpc end;
      snoc_simpl.
    + (* the load failed *)
      split; [exact Hnd|]. split; [exact Hdone|]. split; [exact Hsp|].
      left. exact Hpc.
    + split; [exact Hnd|]. split; [exact Hdone|]. split; [exact Hsp|].
      destruct Hpc as [Ht Htr]. exists []. rewrite Ht, Htr. repeat split.
    + destruct Hpc as (started & -> & Hlen & Hsig).
      split; [exact Hnd|]. split; [exact Hdone|]. split; [exact Hsp|].
      rewrite app_nil_r, Hsig. simpl. repeat split; auto; lia.
    + destruct Hpc as (started & -> & Hlen & Hsig).
      split; [exact Hnd|]. split; [|split].
      * intros i Hi. rewrite Hsig in Hi. inversion Hi.
      * rewrite Hsp, length_app. simpl. rewrite Nat.add_1_r, seq_S. reflexivity.
      * match goal with
        | H : mainPC s = MSpawn (?a :: _) |- _ => exists (started ++ [a])
        end.
        rewrite <- app_assoc, !length_app. simpl.
        repeat split; auto; lia.
    + destruct Hpc as (Hlen & Hsig).
      split; [exact Hnd|]. split; [exact Hdone|]. split; [exact Hsp|].
      repeat split; auto; lia.
    + destruct Hpc as (Hlen & Hsig).
      split; [exact Hnd|]. split; [exact Hdone|]. split; [exact Hsp|].
      right. repeat split; auto.
  - step_cases Hstep;
      try (eapply barrier_frame;
           [exact Hinv|eassumption|discriminate|reflexivity|reflexivity
           |simpl; snoc_simpl; reflexivity|simpl; snoc_simpl; reflexivity]).
    (* the signal: line 173 meets line 187 *)
    destruct Hinv as (Hnd & Hdone & Hsp & Hpc). rewrite H1 in Hpc.
    destruct Hpc as [Hlen Hcount].
    assert (Hnew : i ∉ signalled (trace s)).
    { intros Hin. apply Hdone in Hin. congruence. }
    unfold barrierInv; simpl; snoc_simpl. rewrite length_insert, length_app. simpl.
    split; [|split; [|split; [exact Hsp|split; [exact Hlen|lia]]]].
    + apply NoDup_app. split; [exact Hnd|]. split.
      * intros j Hj Hj'. apply list_elem_of_singleton in Hj'. now subst.
      * apply NoDup_singleton.
    + intros j Hj. apply elem_of_app in Hj as [Hj|Hj].
      * eapply done_frame; eauto.
      * apply list_elem_of_singleton in Hj. subst j.
        apply list_lookup_insert_eq. eapply lookup_lt_Some; eauto.
Qed.
End Barrier.

(** ** The result of the pass *)

Section PassResult.
Context (env : Env) (addresses : list string).

Lemma passInv_initial : passInv env initial.
Proof. unfold passInv; simpl. auto. Qed.

(** A step that leaves the merged slice, the database and the place of
    the main goroutine alone. *)
Lemma pass_frame s s' :
  passInv env s →
  (mainPC s' = mainPC s
   ∨ ∃ k k', mainPC s = MWait k ∧ mainPC s' = MWait k') →
  nodes s' = nodes s → world s' = world s →
  appended (trace s') = appended (trace s) →
  committed (trace s') = committed (trace s) →
  passInv env s'.
Proof.
  intros [Hn Hm] Hpc Hnodes Hw Happ Hc.
  unfold passInv. rewrite Hnodes, Hw, Happ, Hc.
  split; [exact Hn|].
  destruct Hpc as [->|(k & k' & Hk & ->)]; [exact Hm|].
  now rewrite Hk in Hm.
Qed.

Lemma passInv_step a s s' :
  barrierInv addresses s → passInv env s →
  step env addresses a s = Some s' → passInv env s'.
Proof.
  intros Hbar Hinv Hstep.
  destruct a as [|i].
  - step_cases Hstep; destruct Hinv as [Hn Hm];
      match goal with H : mainPC s = _ |- _ => rewrite H in Hm end;
      unfold passInv; simpl; snoc_simpl; (split; [exact Hn|]).
    + (* the load failed *)
      destruct Hm as [Hw Hc]. rewrite Hw in *.
      destruct Hbar as (_ & _ & _ & Hb). rewrite H in Hb. destruct Hb as [_ Htr].
      rewrite Htr in Hn. simpl in Hn.
      left. unfold loadErr, loadedWorld. rewrite H0. simpl. auto.
    + destruct Hm as [Hw Hc]. rewrite Hw in *.
      unfold loadErr, loadedWorld. rewrite H0. simpl. auto.
    + auto.
    + auto.
    + auto.
    + (* the commit *)
      destruct Hm as (Hl & Hw & Hc). rewrite Hw in *. rewrite Hc, H0. simpl.
      right. auto.
  - step_cases Hstep;
      try (eapply pass_frame; [exact Hinv|simpl; eauto|
             reflexivity|reflexivity|simpl; snoc_simpl; reflexivity
             |simpl; snoc_simpl; reflexivity]).
    (* the append, lines 210-212 *)
    match goal with
    | H : tasks s !! i = Some ?pc |- _ =>
        pose proof (barrier_closed addresses s i pc Hbar) as Hcl;
        specialize (λ Hm, Hcl Hm H)
    end.
    destruct Hinv as [Hn Hm].
    unfold passInv; simpl; snoc_simpl. split.
    + rewrite concat_app, Hn. simpl. now rewrite app_nil_r.
    + destruct (mainPC s); try exact Hm; discriminate Hcl; exact I.
Qed.
End PassResult.

(** ** What the tasks contribute *)

Section Contributions.
Context (env : Env) (addresses : list string).

Lemma fetchInv_initial : fetchInv env initial.
Proof.
  unfold fetchInv; simpl. repeat split; intros; try discriminate;
    match goal with H : _ ∈ [] |- _ => inversion H end.
Qed.

Lemma failureLogged_mono a r (log log' : list logEvent) :
  failureLogged a r log → failureLogged a r (log ++ log').
Proof.
  destruct r; simpl; auto; intros H; apply elem_of_app; now left.
Qed.

(** What holds of a task is not disturbed by the request of another. *)
Lemma taskInv_other rq i u j pc :
  i ≠ j → taskInv env rq j pc → taskInv env (rq ++ [(i, u)]) j pc.
Proof.
  intros Hne. destruct pc as [| | | |[ns|]| |]; simpl; auto.
  - intros H u' Hin. apply elem_of_app in Hin as [Hin|Hin]; [now apply (H u')|].
    apply list_elem_of_singleton in Hin. congruence.
  - intros H u' Hin. apply elem_of_app in Hin as [Hin|Hin]; [now apply (H u')|].
    apply list_elem_of_singleton in Hin. congruence.
  - intros [H1 H2]. split; [|exact H2]. apply elem_of_app; now left.
  - intros [H1 H2]. split; [|exact H2]. apply elem_of_app; now left.
  - intros (u' & H1 & H2). exists u'. split; [|exact H2]. apply elem_of_app; now left.
Qed.

(** A step of task [i] that makes no request and appends nothing. *)
Lemma fetch_frame s s' i pc' :
  fetchInv env s →
  (i < length (tasks s))%nat →
  tasks s' = <[i := pc']> (tasks s) →
  requested (trace s') = requested (trace s) →
  appendedBy (trace s') = appendedBy (trace s) →
  (∃ more, logs s' = logs s ++ more) →
  taskInv env (requested (trace s)) i pc' →
  fetchInv env s'.
Proof.
  intros (F1 & F2 & F3 & F4 & F5) Hlt Ht Hrq Hap [more Hlog] Hpc'.
  unfold fetchInv. rewrite Ht, Hrq, Hap, Hlog, length_insert.
  split; [|split; [exact F2|split; [exact F3|split; [exact F4|]]]].
  - intros j pc Hj. destruct (decide (i = j)) as [->|Hne].
    + rewrite list_lookup_insert_eq in Hj by exact Hlt. now injection Hj as <-.
    + rewrite list_lookup_insert_ne in Hj by exact Hne. now apply F1.
  - intros j u Hin Hfail. destruct (F5 j u Hin Hfail) as (a & -> & Hl).
    exists a. split; [reflexivity|]. now apply failureLogged_mono.
Qed.

(** The request of task [i], lines 223-241. *)
Lemma fetch_request s s' i a pc' more :
  fetchInv env s →
  tasks s !! i = Some (TFetch a) →
  tasks s' = <[i := pc']> (tasks s) →
  requested (trace s') = requested (trace s) ++ [(i, apiAllURL a)] →
  appendedBy (trace s') = appendedBy (trace s) →
  logs s' = logs s ++ more →
  taskInv env (requested (trace s')) i pc' →
  (isDecoded (httpGet env i (apiAllURL a)) = false →
   failureLogged a (httpGet env i (apiAllURL a)) more) →
  fetchInv env s'.
Proof.
  intros (F1 & F2 & F3 & F4 & F5) Hi Ht Hrq Hap Hlog Hpc' Hfail.
  pose proof (lookup_lt_Some _ _ _ Hi) as Hlt.
  pose proof (F1 _ _ Hi) as Hnone. simpl in Hnone.
  unfold fetchInv. rewrite Hrq in Hpc'. rewrite Ht, Hrq, Hap, Hlog, length_insert.
  split; [|split; [|split; [|split]]].
  - intros j pc Hj. destruct (decide (i = j)) as [->|Hne].
    + rewrite list_lookup_insert_eq in Hj by exact Hlt. now injection Hj as <-.
    + rewrite list_lookup_insert_ne in Hj by exact Hne.
      apply taskInv_other; [exact Hne|]. now apply F1.
  - intros j u Hin. apply elem_of_app in Hin as [Hin|Hin]; [now apply (F2 j u)|].
    apply list_elem_of_singleton in Hin. now injection Hin as -> _.
  - intros j u u' Hin Hin'.
    apply elem_of_app in Hin as [Hin|Hin];
      apply elem_of_app in Hin' as [Hin'|Hin'];
      rewrite ?list_elem_of_singleton in *; simplify_eq.
    + eapply F3; eauto.
    + now apply Hnone in Hin.
    + now apply Hnone in Hin'.
    + reflexivity.
  - intros j Hj. destruct (F4 j Hj) as (u & Hu & Hd).
    exists u. split; [|exact Hd]. apply elem_of_app; now left.
  - intros j u Hin Hnd. apply elem_of_app in Hin as [Hin|Hin].
    + destruct (F5 j u Hin Hnd) as (a' & -> & Hl).
      exists a'. split; [reflexivity|]. now apply failureLogged_mono.
    + apply list_elem_of_singleton in Hin. injection Hin as -> ->.
      exists a. split; [reflexivity|].
      specialize (Hfail Hnd). destruct (httpGet env i (apiAllURL a)); simpl in *;
        auto; apply elem_of_app; now right.
Qed.

Lemma fetchInv_step a s s' :
  fetchInv env s → step env addresses a s = Some s' → fetchInv env s'.
Proof.
  intros Hinv Hstep.
  destruct a as [|i].
  - step_cases Hstep;
      try (unfold fetchInv in *; simpl; snoc_simpl; exact Hinv).
    (* a goroutine is started *)
    destruct Hinv as (F1 & F2 & F3 & F4 & F5).
    unfold fetchInv; simpl; snoc_simpl. rewrite length_app. simpl.
    split; [|split; [|split; [exact F3|split; [exact F4|exact F5]]]].
    + intros j pc Hj. apply lookup_app_Some in Hj as [Hj|[Hge Hj]]; [now apply F1|].
      apply list_lookup_singleton_Some in Hj as [Hj <-]. simpl.
      intros u Hin. apply F2 in Hin. lia.
    + intros j u Hin. apply F2 in Hin. lia.
  - assert (Hlt : (i < length (tasks s))%nat).
    { unfold step, stepTask in Hstep. destruct (tasks s !! i) eqn:E; [|discriminate].
      now apply lookup_lt_Some in E. }
    pose proof Hinv as (F1 & _).
    step_cases Hstep;
      match goal with H : tasks s !! i = Some _ |- _ => pose proof (F1 _ _ H) as Hpc end;
      simpl in Hpc.
    all: try (eapply fetch_frame;
           [exact Hinv|exact Hlt|reflexivity|simpl; snoc_simpl; reflexivity
           |simpl; snoc_simpl; reflexivity|simpl; eauto using app_nil_r|simpl; eauto]; fail).
    all: try (eapply fetch_request;
           [exact Hinv|eassumption|reflexivity|simpl; snoc_simpl; reflexivity
           |simpl; snoc_simpl; reflexivity|simpl; reflexivity
           |simpl; snoc_simpl
           |match goal with H : httpGet _ _ _ = _ |- _ => rewrite H end; simpl];
           first [exact I | intros _; apply list_elem_of_singleton; reflexivity
                 | discriminate | idtac]; fail).
    + (* a payload came back *)
      eapply (fetch_request s _ i _ _ []);
        [exact Hinv|eassumption|reflexivity|simpl; snoc_simpl; reflexivity
        |simpl; snoc_simpl; reflexivity|simpl; symmetry; apply app_nil_r| |].
      * simpl; snoc_simpl. split.
        -- apply elem_of_app; right. apply list_elem_of_singleton. reflexivity.
        -- match goal with H : httpGet _ _ _ = _ |- _ => now rewrite H end.
      * match goal with H : httpGet _ _ _ = _ |- _ => rewrite H end. discriminate.
    + (* the append, lines 210-212 *)
      destruct Hinv as (_ & F2 & F3 & F4 & F5).
      unfold fetchInv; simpl; snoc_simpl. rewrite length_insert.
      split; [|split; [exact F2|split; [exact F3|split; [|exact F5]]]].
      * intros j pc Hj. destruct (decide (i = j)) as [->|Hne].
        -- rewrite list_lookup_insert_eq in Hj by exact Hlt. now injection Hj as <-.
        -- rewrite list_lookup_insert_ne in Hj by exact Hne. now apply F1.
      * intros j Hj. apply elem_of_app in Hj as [Hj|Hj]; [now apply F4|].
        apply list_elem_of_singleton in Hj. subst j. exact Hpc.
Qed.
End Contributions.

(** ** The pass as a whole *)

Lemma contributions_fst tr : (contributions tr).*1 = appendedBy tr.
Proof.
  induction tr as [|ev tr IH]; [reflexivity|].
  destruct ev; simpl; auto. now f_equal.
Qed.

Lemma contributions_snd tr : (contributions tr).*2 = appended tr.
Proof.
  induction tr as [|ev tr IH]; [reflexivity|].
  destruct ev; simpl; auto. now f_equal.
Qed.

Section PassClaims.
Context (env : Env) (addresses : list string).

Lemma reachable_invariants s :
  reachable env addresses s →
  barrierInv addresses s ∧ passInv env s ∧ fetchInv env s.
Proof.
  apply (reachable_invariant env addresses
           (λ s, barrierInv addresses s ∧ passInv env s ∧ fetchInv env s)).
  - split; [apply barrierInv_initial|].
    split; [apply passInv_initial|apply fetchInv_initial].
  - intros a s0 s1 (Hb & Hp & Hf) Hstep.
    split; [eapply barrierInv_step; eauto|].
    split; [eapply passInv_step; eauto|eapply fetchInv_step; eauto].
Qed.

(** X21, the join: whenever the main goroutine stands at the commit, as many
    goroutines have been started as there are addresses, numbered in
    the order of the list, and each of them has signalled exactly
    once. *)
Lemma commit_after_all_signals s :
  reachable env addresses s → mainPC s = MCommit →
  length (tasks s) = length addresses
  ∧ spawned (trace s) = seq 0 (length addresses)
  ∧ signalled (trace s) ≡ₚ seq 0 (length addresses)
  ∧ ∀ i pc, tasks s !! i = Some pc → pc = TDone.
Proof.
  intros Hreach Hpc.
  destruct (reachable_invariants s Hreach) as (Hb & _ & _).
  pose proof Hb as (_ & _ & Hsp & Hm). rewrite Hpc in Hm.
  destruct Hm as [Hlen Hsig].
  destruct (barrier_full addresses s Hb) as [Hperm Hall]; [congruence|].
  rewrite Hlen in *. auto.
Qed.

(** No signal is received twice, at any point of any run. *)
Lemma signals_distinct s :
  reachable env addresses s → NoDup (signalled (trace s)).
Proof. intros Hreach. now destruct (reachable_invariants s Hreach) as ((? & _) & _). Qed.

(** C4: when the pass has returned [err], either the load of the
    registry failed and [err] is its error, or the load succeeded and
    [err] is what [CacheNodes] returned for the merged slice; so [err]
    is non-nil exactly when the load failed or the commit did.  The
    merged slice is made of the contributions of the tasks; a task
    whose request failed to get through, to decode, or came back with
    a remote error has contributed nothing and has logged the failure;
    and with a store that accepts every statement the pass returns nil
    whatever the remotes answered. *)
Theorem pass_fails_only_on_load_or_commit (s : State) (err : option error) :
  reachable env addresses s →
  mainPC s = MReturned err →
  ((loadErr env = err ∧ err ≠ None)
   ∨ (loadErr env = None
      ∧ err = (CacheNodes env (nodes s) (loadedWorld env)).1))
  ∧ (err ≠ None ↔
       loadErr env ≠ None
       ∨ (loadErr env = None
          ∧ (CacheNodes env (nodes s) (loadedWorld env)).1 ≠ None))
  ∧ nodes s = concat (contributions (trace s)).*2
  ∧ (∀ i u, (i, u) ∈ requested (trace s) →
       isDecoded (httpGet env i u) = false →
       (i ∉ (contributions (trace s)).*1)
       ∧ ∃ a, u = apiAllURL a ∧ failureLogged a (httpGet env i u) (logs s))
  ∧ ((∀ log, prepareErr env log cacheNodesSQL = None) →
     (∀ log args, execErr env log cacheNodesSQL args = None) →
     loadErr env = None → err = None).
Proof.
  intros Hreach Hpc.
  destruct (reachable_invariants s Hreach) as (_ & [Hn Hm] & Hf).
  rewrite Hpc in Hm.
  assert (Hsrc : (loadErr env = err ∧ err ≠ None)
                 ∨ (loadErr env = None
                    ∧ err = (CacheNodes env (nodes s) (loadedWorld env)).1)).
  { destruct Hm as [(Hl & He & _)|(Hl & _ & He & _)]; auto. }
  split; [exact Hsrc|]. split; [|split; [|split]].
  - split.
    + intros He. destruct Hsrc as [[Hl _]|[Hl Hc]].
      * left. congruence.
      * right. split; [exact Hl|congruence].
    + intros [Hl|[Hl Hc]]; destruct Hsrc as [[Hl' He]|[Hl' He]]; congruence.
  - now rewrite contributions_snd.
  - intros i u Hin Hfail. destruct Hf as (_ & _ & F3 & F4 & F5).
    split; [|now apply F5].
    rewrite contributions_fst. intros Hi.
    destruct (F4 i Hi) as (u' & Hu' & Hd).
    rewrite (F3 i u u' Hin Hu') in Hfail. congruence.
  - intros Hprep Hexec Hl.
    destruct Hsrc as [[Hl' He]|[_ ->]]; [congruence|].
    now apply CacheNodes_accepting.
Qed.

End PassClaims.

(** Two remotes, the first of them down: the pass returns nil, the
    failure is logged, the node of the second is in the merged slice. *)
Lemma pass_fails_only_on_load_or_commit_witness :
  ∃ s, GetAllFromChildMaps Examples.envOneDown Examples.twoRemotes Examples.oneDown
       = Some s
    ∧ mainPC s = MReturned None
    ∧ ((loadErr Examples.envOneDown = None ∧ (None : option error) ≠ None)
       ∨ (loadErr Examples.envOneDown = None
          ∧ None = (CacheNodes Examples.envOneDown (nodes s)
                      (loadedWorld Examples.envOneDown)).1))
    ∧ ((None : option error) ≠ None ↔
         loadErr Examples.envOneDown ≠ None
         ∨ (loadErr Examples.envOneDown = None
            ∧ (CacheNodes Examples.envOneDown (nodes s)
                 (loadedWorld Examples.envOneDown)).1 ≠ None))
    ∧ nodes s = concat (contributions (trace s)).*2
    ∧ (∀ i u, (i, u) ∈ requested (trace s) →
         isDecoded (httpGet Examples.envOneDown i u) = false →
         (i ∉ (contributions (trace s)).*1)
         ∧ ∃ a, u = apiAllURL a
                ∧ failureLogged a (httpGet Examples.envOneDown i u) (logs s))
    ∧ ((∀ log, prepareErr Examples.envOneDown log cacheNodesSQL = None) →
       (∀ log args, execErr Examples.envOneDown log cacheNodesSQL args = None) →
       loadErr Examples.envOneDown = None → (None : option error) = None).
Proof.
  eexists. split; [vm_compute; reflexivity|].
  split; [reflexivity|].
  apply (pass_fails_only_on_load_or_commit Examples.envOneDown Examples.twoRemotes).
  - exists Examples.oneDown. vm_compute; reflexivity.
  - reflexivity.
Defined.

(** ** A task on its own, and a pass to its end *)

Section Solo.
Context (env : Env) (addresses : list string).









End Solo.

(** ** The order of the nodes *)



(** Every entry of the payload is one block of the stamped result. *)
Lemma stamped_block : ∀ l1 ids (source : string) remoteNodes l2,
  length ids = length (l1 ++ (source, remoteNodes) :: l2) →
  ∃ id pre post,
    stamped ids (l1 ++ (source, remoteNodes) :: l2)
    = pre ++ map (setSourceID id) remoteNodes ++ post.
Proof.
  induction l1 as [|[s0 ns0] l1 IH]; intros ids source remoteNodes l2 Hlen.
  - destruct ids as [|id ids]; [discriminate|].
    exists id, [], (stamped ids l2). reflexivity.
  - destruct ids as [|id0 ids]; [discriminate|].
    simpl in Hlen. injection Hlen as Hlen.
    destruct (IH ids source remoteNodes l2 Hlen) as (id & pre & post & Heq).
    exists id, (stampAll id0 ns0 ++ pre), post.
    unfold stamped in *. rewrite <- app_comm_cons, fmap_cons. simpl zip_with.
    simpl concat. rewrite Heq. now rewrite <- app_assoc.
Qed.

Section Order.
Context (env : Env) (addresses : list string).




End Order.

(** ** The loop variable *)

Section Addr.
Context (env : Env) (addresses : list string).

Lemma addressInv_initial : addressInv addresses initial.
Proof.
  repeat split; simpl.
  - intros i Hi. lia.
  - intros i a Hi. discriminate.
  - intros i u Hin. inversion Hin.
Qed.

Lemma address_update s s' i pc' :
  addressInv addresses s →
  (i < length (tasks s))%nat →
  tasks s' = <[i := pc']> (tasks s) →
  address s' = address s →
  requested (trace s') = requested (trace s) →
  (∀ a, pc' = TFetch a → laterAddress addresses i a) →
  addressInv addresses s'.
Proof.
  intros (A1 & A2 & A3) Hlt Ht Ha Hrq Hpc'.
  unfold addressInv. rewrite Ht, Ha, Hrq, length_insert.
  split; [exact A1|]. split; [|exact A3].
  intros j a Hj. destruct (decide (i = j)) as [->|Hne].
  - rewrite list_lookup_insert_eq in Hj by exact Hlt. injection Hj as ->. now apply Hpc'.
  - rewrite list_lookup_insert_ne in Hj by exact Hne. now apply A2.
Qed.

Lemma addressInv_step a s s' :
  barrierInv addresses s → addressInv addresses s →
  step env addresses a s = Some s' → addressInv addresses s'.
Proof.
  intros Hbar Hinv Hstep. destruct a as [|i].
  - step_cases Hstep;
      try (unfold addressInv in *; simpl; snoc_simpl; exact Hinv).
    (* an iteration of the loop: the variable is assigned, a task started *)
    destruct Hbar as (_ & _ & _ & Hm).
    match goal with H : mainPC s = _ |- _ => rewrite H in Hm end.
    destruct Hm as (started & Haddr & Hlen & _).
    destruct Hinv as (A1 & A2 & A3).
    unfold addressInv; simpl; snoc_simpl. rewrite length_app. simpl.
    split; [|split; [|exact A3]].
    + intros i Hi. exists (length started). split; [lia|].
      rewrite Haddr. rewrite lookup_app_r by lia.
      now rewrite Nat.sub_diag.
    + intros i a Hi. apply lookup_app_Some in Hi as [Hi|[_ Hi]]; [now apply A2|].
      apply list_lookup_singleton_Some in Hi as [_ Hi]. discriminate.
  - assert (Hlt : (i < length (tasks s))%nat).
    { unfold step, stepTask in Hstep. destruct (tasks s !! i) eqn:E; [|discriminate].
      now apply lookup_lt_Some in E. }
    pose proof Hinv as (A1 & A2 & A3).
    step_cases Hstep;
      try (eapply address_update;
           [exact Hinv|exact Hlt|reflexivity|reflexivity
           |simpl; snoc_simpl; reflexivity
           |first [intros ? [= <-]; now apply A1 | discriminate]]; fail).
    all: match goal with H : tasks _ !! _ = Some (TFetch _) |- _ =>
           pose proof (A2 _ _ H) as Hlater end.
    all: unfold addressInv; simpl; snoc_simpl; rewrite length_insert;
      (split; [exact A1|]); split.
    all: try (intros j a Hj; destruct (decide (i = j)) as [->|Hne];
              [rewrite list_lookup_insert_eq in Hj by exact Hlt; discriminate
              |rewrite list_lookup_insert_ne in Hj by exact Hne; now apply A2]).
    all: intros j u Hin; apply elem_of_app in Hin as [Hin|Hin]; [now apply A3|];
      apply list_elem_of_singleton in Hin; injection Hin as -> ->; eauto.
Qed.

(** X23: every task fetches from the address of the iteration that
    started it, or of a later one. *)
Lemma task_fetches_later_address s i u :
  reachable env addresses s →
  (i, u) ∈ requested (trace s) →
  ∃ j a, (i ≤ j)%nat ∧ addresses !! j = Some a ∧ u = apiAllURL a.
Proof.
  intros Hreach Hin.
  assert (Hinv : barrierInv addresses s ∧ addressInv addresses s).
  { revert Hreach.
    apply (reachable_invariant env addresses
             (λ s, barrierInv addresses s ∧ addressInv addresses s)).
    - split; [apply barrierInv_initial|apply addressInv_initial].
    - intros a s0 s1 [Hb Ha] Hstep.
      split; [eapply barrierInv_step; eauto|eapply addressInv_step; eauto]. }
  destruct Hinv as (_ & _ & _ & A3).
  destruct (A3 i u Hin) as (a & (j & Hj & Ha) & ->). eauto.
Qed.
End Addr.

(** ** Two runs of the pass *)

(** C1: two tasks that look the same unknown hostname up before either
    registers it both find it absent, and each then registers it under
    the write lock without looking again: c.example is resolved to 2 by
    one task and to 3 by the other, its two nodes are cached under
    different IDs and the registry keeps 3 only; the registry not having
    grown with the second registration, d.example, met next, is given 3
    as well. *)
Theorem concurrent_resolution_two_ids :
  ∃ s, GetAllFromChildMaps Examples.envListCD Examples.twoRemotes Examples.bothMiss
       = Some s
    ∧ mainPC s = MReturned None
    ∧ requested (trace s)
      = [(0%nat, "http://a.example/api/all"); (1%nat, "http://b.example/api/all")]
    ∧ resolved (trace s) = [("c.example", 2); ("c.example", 3); ("d.example", 3)]
    ∧ map SourceID (nodes s) = [2; 3; 3]
    ∧ sourceToID s !! "c.example" = Some 3
    ∧ sourceToID s !! "d.example" = Some 3
    ∧ allocSource "c.example" (<["c.example" := 2]> seedRegistry)
      = (3, <["c.example" := 3]> seedRegistry).
Proof.
  eexists. split; [vm_compute; reflexivity|].
  repeat split; vm_compute; reflexivity.
Qed.

(** The same two remotes asked one after the other: one ID. *)
Lemma sequential_resolution_one_id :
  ∃ s, GetAllFromChildMaps Examples.envListC Examples.twoRemotes
         Examples.oneAfterTheOther = Some s
    ∧ resolved (trace s) = [("c.example", 2); ("c.example", 2)]
    ∧ map SourceID (nodes s) = [2; 2].
Proof.
  eexists. split; [vm_compute; reflexivity|].
  repeat split; vm_compute; reflexivity.
Qed.

(** With a registry loaded from a table whose IDs run ahead of its size,
    the size plus one is an ID already taken. *)
Lemma fresh_id_can_collide :
  (scanRows [ScanOk "x.example" 3] seedRegistry).1 !! "x.example" = Some 3
  ∧ (resolve "y.example" (scanRows [ScanOk "x.example" 3] seedRegistry).1).1 = 3.
Proof. split; vm_compute; reflexivity. Qed.

(** C3: with the addresses a.example and b.example, when both goroutines
    are started before either runs, two tasks are started and two
    signals received before the commit, but both tasks read [address]
    after the loop has left it at b.example: both fetch from b.example
    and nothing is fetched from a.example. *)
Theorem tasks_fetch_last_address :
  ∃ s, GetAllFromChildMaps Examples.envListC Examples.twoRemotes
         Examples.spawnThenRunToEnd = Some s
    ∧ mainPC s = MReturned None
    ∧ spawned (trace s) = [0; 1]%nat
    ∧ signalled (trace s) = [0; 1]%nat
    ∧ requested (trace s)
      = [(0%nat, apiAllURL "b.example"); (1%nat, apiAllURL "b.example")]
    ∧ ∀ i, (i, apiAllURL "a.example") ∉ requested (trace s).
Proof.
  eexists. split; [vm_compute; reflexivity|].
  repeat split; try (vm_compute; reflexivity).
  intros i Hin. simpl in Hin.
  apply elem_of_cons in Hin as [Hin|Hin]; [discriminate Hin|].
  apply elem_of_cons in Hin as [Hin|Hin]; [discriminate Hin|].
  inversion Hin.
Qed.

(** ** Loading the two tables *)

Section InsertAll.
Context {K V : Type} `{Countable K}.

(** Rows written one after the other into a map, keys all different:
    what a lookup finds afterwards. *)
Lemma foldl_insert_lookup (kvs : list (K * V)) : ∀ (m : gmap K V) k v,
  NoDup kvs.*1 →
  foldl (λ acc kv, <[kv.1 := kv.2]> acc) m kvs !! k = Some v
  ↔ ((k, v) ∈ kvs) ∨ ((k ∉ kvs.*1) ∧ m !! k = Some v).
Proof.
  induction kvs as [|[k0 v0] kvs IH]; intros m k v Hnd.
  - simpl. rewrite elem_of_nil. split; [intros Hm; right; split; [apply not_elem_of_nil|exact Hm]|].
    intros [[]|[_ Hm]]; exact Hm.
  - apply NoDup_cons in Hnd as [Hk0 Hnd]. simpl.
    rewrite (IH _ k v Hnd), elem_of_cons, not_elem_of_cons.
    destruct (decide (k = k0)) as [->|Hne].
    + rewrite lookup_insert_eq. split.
      * intros [Hin|[_ [= ->]]]; [|now left; left].
        exfalso. apply Hk0. apply list_elem_of_fmap. now exists (k0, v).
      * intros [[[= ->]|Hin]|[[Hne _] _]]; [|left; exact Hin|congruence].
        right. split; [exact Hk0|reflexivity].
    + rewrite lookup_insert_ne by congruence. split.
      * intros [Hin|[Hnot Hm]]; [left; now right|right; auto].
      * intros [[[= -> ->]|Hin]|[[_ Hnot] Hm]]; [congruence|now left|right; auto].
Qed.

Lemma foldl_insert_size (kvs : list (K * V)) : ∀ (m : gmap K V),
  NoDup kvs.*1 → (∀ k, k ∈ kvs.*1 → m !! k = None) →
  size (foldl (λ acc kv, <[kv.1 := kv.2]> acc) m kvs) = (size m + length kvs)%nat.
Proof.
  induction kvs as [|[k0 v0] kvs IH]; intros m Hnd Hfresh; simpl; [lia|].
  apply NoDup_cons in Hnd as [Hk0 Hnd].
  rewrite IH; [|exact Hnd|].
  - rewrite map_size_insert_None; [lia|]. apply Hfresh. simpl. apply elem_of_cons. now left.
  - intros k Hk. rewrite lookup_insert_ne.
    + apply Hfresh. simpl. apply elem_of_cons. now right.
    + intros ->. contradiction.
Qed.

End InsertAll.

Lemma scanRows_ok table : ∀ m,
  scanRows (okRows table) m
  = (foldl (λ acc row, <[row.1 := row.2]> acc) m table, None).
Proof. induction table as [|[h id] t IH]; intros m; simpl; [reflexivity|apply IH]. Qed.

Lemma scanIDRows_ok table : ∀ m,
  scanIDRows (okRows table) m
  = (foldl (λ acc row, <[row.1 := row.2]> acc) m (prod_swap <$> table), None).
Proof. induction table as [|[h id] t IH]; intros m; simpl; [reflexivity|apply IH]. Qed.

(** Scanning keeps the entries whose key no row names, and every key. *)
Lemma scanRows_keeps rows : ∀ m (h : string),
  is_Some (m !! h) → is_Some ((scanRows rows m).1 !! h).
Proof.
  induction rows as [|[h0 id0|e] rows IH]; intros m h Hm; simpl; auto.
  apply IH. destruct (decide (h0 = h)) as [->|Hne].
  - rewrite lookup_insert_eq. eauto.
  - now rewrite lookup_insert_ne.
Qed.

Lemma scanRows_untouched rows : ∀ m (h : string),
  (∀ id, (ScanOk h id ∉ rows)) → (scanRows rows m).1 !! h = m !! h.
Proof.
  induction rows as [|[h0 id0|e] rows IH]; intros m h Hno; simpl; auto.
  rewrite IH.
  - apply lookup_insert_ne. intros ->. apply (Hno id0). apply elem_of_cons. now left.
  - intros id Hin. apply (Hno id). apply elem_of_cons. now right.
Qed.

Lemma scanRows_error rows : ∀ m e,
  (scanRows rows m).2 = Some e →
  ∃ pre post, rows = okRows pre ++ ScanErr e :: post.
Proof.
  induction rows as [|[h0 id0|e0] rows IH]; intros m e Herr; simpl in Herr.
  - discriminate.
  - destruct (IH _ _ Herr) as (pre & post & ->).
    exists ((h0, id0) :: pre), post. reflexivity.
  - injection Herr as ->. exists [], rows. reflexivity.
Qed.

Lemma scanRows_stops pre e post m :
  scanRows (okRows pre ++ ScanErr e :: post) m
  = ((scanRows (okRows pre) m).1, Some e).
Proof.
  revert m. induction pre as [|[h id] pre IH]; intros m; simpl; [reflexivity|apply IH].
Qed.

Lemma scanRows_table (table : list (string * Z)) h id :
  NoDup table.*1 → ("local" ∉ table.*1) →
  (scanRows (okRows table) seedRegistry).1 !! h = Some id
  ↔ ((h, id) ∈ table) ∨ (h = "local" ∧ id = 0).
Proof.
  intros Hnd Hlocal. rewrite scanRows_ok. simpl.
  rewrite foldl_insert_lookup by exact Hnd.
  unfold seedRegistry. rewrite lookup_singleton_Some. split.
  - intros [Hin|[_ [<- <-]]]; auto.
  - intros [Hin|[-> ->]]; auto.
Qed.

Lemma scanRows_table_size (table : list (string * Z)) :
  NoDup table.*1 → ("local" ∉ table.*1) →
  size (scanRows (okRows table) seedRegistry).1 = S (length table).
Proof.
  intros Hnd Hlocal. rewrite scanRows_ok. simpl.
  rewrite foldl_insert_size; [reflexivity|exact Hnd|].
  intros k Hk. apply lookup_singleton_ne. intros <-. contradiction.
Qed.

Section LoadFacts.
Context (env : Env).

Lemma GetMapSourceToID_unfold w :
  GetMapSourceToID env w =
    (match queryRes env (dbLog w) sourceToIDSQL with
     | QueryErr ErrNoRows => (seedRegistry, None)
     | QueryErr e => (seedRegistry, Some e)
     | QueryRows rows => scanRows rows seedRegistry
     end, logDb (EvQuery sourceToIDSQL) w).
Proof.
  unfold GetMapSourceToID, bind, Query, ret.
  destruct (queryRes env (dbLog w) sourceToIDSQL) as [[|msg]|rows]; reflexivity.
Qed.

(** X1: whatever the database answers, the map [GetMapSourceToID]
    returns (also beside an error) has an entry for "local"; the entry
    is 0 unless some row of the table is itself named "local". *)
Theorem GetMapSourceToID_has_local (w : World) :
  is_Some ((GetMapSourceToID env w).1.1 !! "local")
  ∧ ((∀ rows id, queryRes env (dbLog w) sourceToIDSQL = QueryRows rows →
               (ScanOk "local" id ∉ rows)) →
     (GetMapSourceToID env w).1.1 !! "local" = Some 0).
Proof.
  rewrite GetMapSourceToID_unfold. simpl.
  destruct (queryRes env (dbLog w) sourceToIDSQL) as [[|msg]|rows]; simpl.
  1-2: split; [eexists|intros _]; reflexivity.
  split.
  - apply scanRows_keeps. eexists; reflexivity.
  - intros Hno. rewrite scanRows_untouched; [reflexivity|].
    intros id. now apply Hno.
Qed.

(** X2: [GetMapSourceToID] returns the error [e] exactly when the query
    fails with [e] other than [sql.ErrNoRows], or when the first row
    that does not scan fails with [e]; [sql.ErrNoRows] is an empty
    table, not an error. *)
Theorem GetMapSourceToID_error_iff (w : World) (e : error) :
  (GetMapSourceToID env w).1.2 = Some e
  ↔ (queryRes env (dbLog w) sourceToIDSQL = QueryErr e ∧ e ≠ ErrNoRows)
    ∨ (∃ pre post,
         queryRes env (dbLog w) sourceToIDSQL
         = QueryRows (okRows pre ++ ScanErr e :: post)).
Proof.
  rewrite GetMapSourceToID_unfold. simpl.
  destruct (queryRes env (dbLog w) sourceToIDSQL) as [[|msg]|rows] eqn:Hq; simpl.
  - split; [discriminate|]. intros [[[= <-] Hne]|(pre & post & [=])]. congruence.
  - split.
    + intros [= <-]. left. split; [reflexivity|discriminate].
    + intros [[[= <-] _]|(pre & post & [=])]. reflexivity.
  - split.
    + intros Herr. right. destruct (scanRows_error _ _ _ Herr) as (pre & post & ->). eauto.
    + intros [[[=] _]|(pre & post & [= ->])]. now rewrite scanRows_stops.
Qed.

(** X3: when a row fails to scan, [GetMapSourceToID] returns that error
    together with a map that holds "local" and the rows read before it,
    and none of the rows after it. *)
Theorem GetMapSourceToID_stops_at_scan_error
    (w : World) (pre : list (string * Z)) (e : error) (post : list scanResult) :
  NoDup pre.*1 → ("local" ∉ pre.*1) →
  queryRes env (dbLog w) sourceToIDSQL = QueryRows (okRows pre ++ ScanErr e :: post) →
  (GetMapSourceToID env w).1.2 = Some e
  ∧ size (GetMapSourceToID env w).1.1 = S (length pre)
  ∧ ∀ h id, (GetMapSourceToID env w).1.1 !! h = Some id
            ↔ ((h, id) ∈ pre) ∨ (h = "local" ∧ id = 0).
Proof.
  intros Hnd Hlocal Hq.
  rewrite GetMapSourceToID_unfold, Hq, scanRows_stops. simpl.
  split; [reflexivity|]. split.
  - now apply scanRows_table_size.
  - intros h id. now apply scanRows_table.
Qed.

(** X4: for a table that scans, with hostnames all different and none
    of them "local", [GetMapSourceToID] returns no error and a map of
    the table's size plus one that sends each hostname to its ID and
    "local" to 0, and nothing else. *)
Theorem GetMapSourceToID_table (w : World) (table : list (string * Z)) :
  NoDup table.*1 → ("local" ∉ table.*1) →
  queryRes env (dbLog w) sourceToIDSQL = QueryRows (okRows table) →
  (GetMapSourceToID env w).1.2 = None
  ∧ size (GetMapSourceToID env w).1.1 = S (length table)
  ∧ ∀ h id, (GetMapSourceToID env w).1.1 !! h = Some id
            ↔ ((h, id) ∈ table) ∨ (h = "local" ∧ id = 0).
Proof.
  intros Hnd Hlocal Hq.
  rewrite GetMapSourceToID_unfold, Hq. simpl.
  split; [apply (f_equal snd (scanRows_ok table seedRegistry))|]. split.
  - now apply scanRows_table_size.
  - intros h id. now apply scanRows_table.
Qed.
End LoadFacts.

Lemma scanIDRows_stops pre e post m :
  scanIDRows (okRows pre ++ ScanErr e :: post) m
  = ((scanIDRows (okRows pre) m).1, Some e).
Proof.
  revert m. induction pre as [|[h id] pre IH]; intros m; simpl; [reflexivity|apply IH].
Qed.

Lemma swap_fst (table : list (string * Z)) : (prod_swap <$> table).*1 = table.*2.
Proof. induction table as [|[h id] t IH]; simpl; [reflexivity|now f_equal]. Qed.

Lemma swap_elem (table : list (string * Z)) h id :
  (id, h) ∈ prod_swap <$> table ↔ (h, id) ∈ table.
Proof.
  rewrite list_elem_of_fmap. split.
  - intros ([h' id'] & [= -> ->] & Hin). exact Hin.
  - intros Hin. now exists (h, id).
Qed.

Lemma scanIDRows_table (table : list (string * Z)) id h :
  NoDup table.*2 →
  (scanIDRows (okRows table) seedIDs).1 !! id = Some h
  ↔ ((h, id) ∈ table) ∨ ((id ∉ table.*2) ∧ id = 0 ∧ h = "local").
Proof.
  intros Hnd. rewrite scanIDRows_ok. simpl.
  rewrite foldl_insert_lookup by now rewrite swap_fst.
  rewrite swap_elem, swap_fst. unfold seedIDs. rewrite lookup_singleton_Some.
  split; intros [Hin|(Hno & Hid & Hh)]; auto.
Qed.

Section ReverseFacts.
Context (env : Env).

Lemma GetMapIDToSource_unfold w :
  GetMapIDToSource env w =
    (match queryRes env (dbLog w) idToSourceSQL with
     | QueryErr ErrNoRows => (seedIDs, None)
     | QueryErr e => (seedIDs, Some e)
     | QueryRows rows => scanIDRows rows seedIDs
     end, logDb (EvQuery idToSourceSQL) w).
Proof.
  unfold GetMapIDToSource, bind, Query, ret.
  destruct (queryRes env (dbLog w) idToSourceSQL) as [[|msg]|rows]; reflexivity.
Qed.

(** X5: for a table that scans, with IDs all different,
    [GetMapIDToSource] returns no error and a map that sends each ID of
    the table to its hostname; 0 goes to "local" only when no row has
    the ID 0, a row with ID 0 taking its place otherwise. *)
Theorem GetMapIDToSource_table (w : World) (table : list (string * Z)) :
  NoDup table.*2 →
  queryRes env (dbLog w) idToSourceSQL = QueryRows (okRows table) →
  (GetMapIDToSource env w).1.2 = None
  ∧ ∀ id h, (GetMapIDToSource env w).1.1 !! id = Some h
            ↔ ((h, id) ∈ table) ∨ ((id ∉ table.*2) ∧ id = 0 ∧ h = "local").
Proof.
  intros Hnd Hq.
  rewrite GetMapIDToSource_unfold, Hq. simpl.
  split; [apply (f_equal snd (scanIDRows_ok table seedIDs))|].
  intros id h. now apply scanIDRows_table.
Qed.

(** X6: read from the same table (hostnames all different, IDs all
    different, no "local", no 0), the maps of [GetMapSourceToID] and
    [GetMapIDToSource] are inverse to each other. *)
Theorem registry_round_trip (w1 w2 : World) (table : list (string * Z)) :
  NoDup table.*1 → NoDup table.*2 → ("local" ∉ table.*1) → (0 ∉ table.*2) →
  queryRes env (dbLog w1) sourceToIDSQL = QueryRows (okRows table) →
  queryRes env (dbLog w2) idToSourceSQL = QueryRows (okRows table) →
  ∀ h id, (GetMapSourceToID env w1).1.1 !! h = Some id
          ↔ (GetMapIDToSource env w2).1.1 !! id = Some h.
Proof.
  intros Hh Hid Hlocal Hzero Hq1 Hq2 h id.
  rewrite GetMapSourceToID_unfold, GetMapIDToSource_unfold, Hq1, Hq2. simpl.
  rewrite scanRows_table, scanIDRows_table by assumption. split.
  - intros [Hin|[-> ->]]; auto.
  - intros [Hin|(_ & -> & ->)]; auto.
Qed.
End ReverseFacts.

(** ** FindSourceMap *)

Section FindSourceFacts.
Context (queryRow : list dbEvent → string → list sqlArg → rowResult).

(** [FindSourceMap 0] answers "local" without asking the database;
    for any other ID one query is made, a hostname found is returned
    with a nil error and a failure with the empty string. *)
Theorem FindSourceMap_zero_and_errors (id : Z) (w : World) :
  (id = 0 → FindSourceMap queryRow id w = (("local", None), w))
  ∧ (id ≠ 0 →
     dbLog (FindSourceMap queryRow id w).2 = dbLog w ++ [EvQuery findSourceSQL]
     ∧ ((FindSourceMap queryRow id w).1.2 ≠ None →
        (FindSourceMap queryRow id w).1.1 = "")
     ∧ ∀ h, queryRow (dbLog w) findSourceSQL [ArgInt id] = RowHostname h →
            (FindSourceMap queryRow id w).1 = (h, None)).
Proof.
  unfold FindSourceMap. split.
  - intros ->. reflexivity.
  - intros Hne. rewrite (proj2 (Z.eqb_neq _ _) Hne). simpl.
    split; [reflexivity|]. split.
    + destruct (queryRow (dbLog w) findSourceSQL [ArgInt id]); simpl; congruence.
    + intros h ->. reflexivity.
Qed.
End FindSourceFacts.

Section FindSourceAgrees.
Context (env : Env)
        (queryRow : list dbEvent → string → list sqlArg → rowResult).

(** X7: on a table with IDs all different and none of them 0,
    [FindSourceMap] and the map of [GetMapIDToSource] name the same
    hostname for 0 and for every ID whose row the database finds. *)
Theorem FindSourceMap_agrees_with_table
    (table : list (string * Z)) (w1 w2 : World) (id : Z) (h : string) :
  NoDup table.*2 → (0 ∉ table.*2) →
  queryRes env (dbLog w2) idToSourceSQL = QueryRows (okRows table) →
  (id = 0 ∧ h = "local")
  ∨ (id ≠ 0 ∧ ((h, id) ∈ table)
     ∧ queryRow (dbLog w1) findSourceSQL [ArgInt id] = RowHostname h) →
  (FindSourceMap queryRow id w1).1 = (h, None)
  ∧ (GetMapIDToSource env w2).1.1 !! id = Some h.
Proof.
  intros Hnd Hzero Hq Hcase.
  rewrite GetMapIDToSource_unfold, Hq. simpl.
  rewrite scanIDRows_table by exact Hnd. unfold FindSourceMap.
  destruct Hcase as [[-> ->]|(Hne & Hin & Hrow)].
  - split; [reflexivity|]. right. auto.
  - rewrite (proj2 (Z.eqb_neq _ _) Hne). simpl. rewrite Hrow.
    split; [reflexivity|]. now left.
Qed.
End FindSourceAgrees.

(** ** CacheFormatNodes *)

Lemma formatRange_lookup ids nodes : ∀ acc (h : string),
  formatRange ids nodes acc !! h =
    match acc !! h, filter (λ n, hostOf ids n = h) nodes with
    | None, [] => None
    | o, l => Some (default [] o ++ l)
    end.
Proof.
  induction nodes as [|n nodes IH]; intros acc h.
  - simpl. destruct (acc !! h); simpl; [now rewrite app_nil_r|reflexivity].
  - simpl formatRange. rewrite IH, filter_cons.
    destruct (decide (hostOf ids n = h)) as [<-|Hne].
    + rewrite lookup_insert_eq. simpl.
      destruct (acc !! hostOf ids n), (filter _ nodes); simpl;
        rewrite <- ?app_assoc; reflexivity.
    + rewrite lookup_insert_ne by exact Hne. reflexivity.
Qed.

Lemma concat_Permutation_proper {A} (l l' : list (list A)) :
  l ≡ₚ l' → concat l ≡ₚ concat l'.
Proof.
  induction 1 as [|x l l' _ IH|x y l|l l' l'' _ IH1 _ IH2]; simpl.
  - reflexivity.
  - now rewrite IH.
  - rewrite !app_assoc. f_equiv. apply Permutation_app_comm.
  - now rewrite IH1.
Qed.

(** Filing one more node adds it to the groups and moves nothing else. *)
Lemma groups_insert (acc : gmap string (list Node)) (h : string) (n : Node) :
  concat (map_to_list (<[h := default [] (acc !! h) ++ [n]]> acc)).*2
  ≡ₚ concat (map_to_list acc).*2 ++ [n].
Proof.
  destruct (acc !! h) as [l|] eqn:Hh; simpl.
  - rewrite <- insert_delete_eq.
    rewrite (concat_Permutation_proper _ _
               (fmap_Permutation snd _ _
                  (map_to_list_insert (delete h acc) h (l ++ [n]) (lookup_delete_eq acc h)))).
    rewrite <- (concat_Permutation_proper _ _
               (fmap_Permutation snd _ _ (map_to_list_delete acc h l Hh))).
    simpl. rewrite <- !app_assoc. f_equiv. apply Permutation_app_comm.
  - rewrite (concat_Permutation_proper _ _
               (fmap_Permutation snd _ _ (map_to_list_insert acc h [n] Hh))).
    simpl. apply Permutation_cons_append.
Qed.

Lemma formatRange_partition ids nodes : ∀ acc,
  concat (map_to_list (formatRange ids nodes acc)).*2
  ≡ₚ concat (map_to_list acc).*2 ++ nodes.
Proof.
  induction nodes as [|n nodes IH]; intros acc; simpl.
  - now rewrite app_nil_r.
  - rewrite IH, groups_insert, <- app_assoc. reflexivity.
Qed.

Section FormatFacts.
Context (env : Env).

Lemma CacheFormatNodes_unfold nodes w :
  CacheFormatNodes env nodes w =
    (match (GetMapIDToSource env w).1.2 with
     | Some e => (None, Some e)
     | None => (Some (formatRange (GetMapIDToSource env w).1.1 nodes ∅), None)
     end, (GetMapIDToSource env w).2).
Proof.
  unfold CacheFormatNodes, bind, ret.
  destruct (GetMapIDToSource env w) as [[ids [e|]] w']; reflexivity.
Qed.

(** X8: [CacheFormatNodes] returns the error of [GetMapIDToSource]
    unchanged, a nil map exactly when there is one, and asks the
    database for nothing but that one table. *)
Theorem CacheFormatNodes_error (nodes : list Node) (w : World) :
  (CacheFormatNodes env nodes w).1.2 = (GetMapIDToSource env w).1.2
  ∧ ((CacheFormatNodes env nodes w).1.1 = None
     ↔ (GetMapIDToSource env w).1.2 ≠ None)
  ∧ dbLog (CacheFormatNodes env nodes w).2 = dbLog w ++ [EvQuery idToSourceSQL].
Proof.
  rewrite CacheFormatNodes_unfold, GetMapIDToSource_unfold. simpl.
  destruct (queryRes env (dbLog w) idToSourceSQL) as [[|msg]|rows]; simpl;
    [repeat split; congruence..|].
  destruct (scanIDRows rows seedIDs) as [ids [e|]]; simpl; repeat split; congruence.
Qed.

(** X9: in the map [CacheFormatNodes] returns, the slice under a
    hostname is the nodes of that source in the order they were given,
    and a hostname none of the nodes belongs to has no entry. *)
Theorem CacheFormatNodes_groups
    (nodes : list Node) (w : World) (groups : gmap string (list Node)) :
  (CacheFormatNodes env nodes w).1.1 = Some groups →
  ∀ h l, groups !! h = Some l
         ↔ l = filter (λ n, hostOf (GetMapIDToSource env w).1.1 n = h) nodes
           ∧ l ≠ [].
Proof.
  rewrite CacheFormatNodes_unfold. simpl.
  destruct (GetMapIDToSource env w).1.2; [discriminate|]. intros [= <-] h l.
  rewrite formatRange_lookup, lookup_empty.
  destruct (filter _ nodes) as [|n ns]; simpl.
  - split; [discriminate|]. intros [-> Hne]. contradiction.
  - split; [intros [= <-]; split; [reflexivity|discriminate]|intros [-> _]; reflexivity].
Qed.

(** X10: the groups of [CacheFormatNodes] together hold every node
    given, each as often as it was given. *)
Theorem CacheFormatNodes_partition
    (nodes : list Node) (w : World) (groups : gmap string (list Node)) :
  (CacheFormatNodes env nodes w).1.1 = Some groups →
  concat (map_to_list groups).*2 ≡ₚ nodes.
Proof.
  rewrite CacheFormatNodes_unfold. simpl.
  destruct (GetMapIDToSource env w).1.2; [discriminate|]. intros [= <-].
  rewrite formatRange_partition, map_to_list_empty. reflexivity.
Qed.

(** X11: a node whose [SourceID] the table does not hold is filed
    under the empty hostname. *)
Theorem CacheFormatNodes_unknown_source
    (nodes : list Node) (w : World) (groups : gmap string (list Node)) (n : Node) :
  (CacheFormatNodes env nodes w).1.1 = Some groups →
  n ∈ nodes →
  (GetMapIDToSource env w).1.1 !! SourceID n = None →
  ∃ l, groups !! "" = Some l ∧ n ∈ l.
Proof.
  rewrite CacheFormatNodes_unfold. simpl.
  destruct (GetMapIDToSource env w).1.2; [discriminate|]. intros [= <-] Hin Hnone.
  rewrite formatRange_lookup, lookup_empty.
  assert (Hf : n ∈ filter (λ n, hostOf (GetMapIDToSource env w).1.1 n = "") nodes).
  { apply list_elem_of_filter. split; [|exact Hin]. unfold hostOf. now rewrite Hnone. }
  destruct (filter _ nodes) as [|n0 ns]; [inversion Hf|].
  simpl. eauto.
Qed.
End FormatFacts.

(** ** More on CacheNodes *)

Section CacheNodesMore.
Context (env : Env).

Lemma cacheOne_event node w :
  ∃ args, dbLog (cacheOne env node w).2 = dbLog w ++ [EvExec cacheNodesSQL args]
    ∧ length args = 7%nat.
Proof.
  rewrite cacheOne_unfold.
  destruct (RetrieveTime node =? 0); eexists; split; reflexivity.
Qed.

Lemma cacheRange_events nodes : ∀ w,
  ∃ rows, dbLog (cacheRange env nodes w).2
          = dbLog w ++ map (EvExec cacheNodesSQL) rows
    ∧ Forall (λ args, length args = 7%nat) rows.
Proof.
  induction nodes as [|n nodes IH]; intros w.
  - exists []. simpl. now rewrite app_nil_r.
  - rewrite cacheRange_cons.
    destruct (cacheOne_event n w) as (args & Hlog & Hlen).
    destruct (cacheOne env n w) as [[e|] w1]; simpl in Hlog.
    + exists [args]. simpl. split; [exact Hlog|repeat constructor; exact Hlen].
    + destruct (IH w1) as (rows & Hrows & Hall).
      exists (args :: rows). rewrite Hrows, Hlog, <- app_assoc.
      split; [reflexivity|constructor; assumption].
Qed.

Lemma CacheNodes_events nodes w :
  ∃ rows,
    dbLog (CacheNodes env nodes w).2
    = dbLog w ++ [EvPrepare cacheNodesSQL] ++ map (EvExec cacheNodesSQL) rows
      ++ match (CacheNodes env nodes w).1 with
         | None => [EvClose cacheNodesSQL]
         | Some _ => []
         end
    ∧ Forall (λ args, length args = 7%nat) rows
    ∧ (prepareErr env (dbLog w) cacheNodesSQL ≠ None → rows = []).
Proof.
  rewrite CacheNodes_unfold.
  destruct (prepareErr env (dbLog w) cacheNodesSQL) as [e|].
  - exists []. simpl. repeat split. constructor.
  - destruct (cacheRange_events nodes (logDb (EvPrepare cacheNodesSQL) w))
      as (rows & Hlog & Hall).
    exists rows. split; [|split; [exact Hall|congruence]].
    destruct (cacheRange env nodes _) as [[e|] w1]; simpl in *;
      rewrite Hlog, <- ?app_assoc; simpl; rewrite ?app_nil_r; reflexivity.
Qed.

(** X13: what [CacheNodes] sends to the database is one Prepare, the
    inserts, and a Close exactly when it returns nil: after a failed
    insert the statement is left open, and after a failed Prepare
    nothing is inserted. *)
Theorem CacheNodes_closes_iff_nil (nodes : list Node) (w : World) :
  ∃ rows,
    dbLog (CacheNodes env nodes w).2
    = dbLog w ++ [EvPrepare cacheNodesSQL] ++ map (EvExec cacheNodesSQL) rows
      ++ match (CacheNodes env nodes w).1 with
         | None => [EvClose cacheNodesSQL]
         | Some _ => []
         end
    ∧ (prepareErr env (dbLog w) cacheNodesSQL ≠ None → rows = []).
Proof.
  destruct (CacheNodes_events nodes w) as (rows & Hlog & _ & Hprep).
  exists rows. auto.
Qed.

(** X14: a [CacheNodes] that returns nil has read the clock once for
    each node without a retrieval time, and not at all for the others. *)
Theorem CacheNodes_clock_readings (nodes : list Node) (w : World) :
  (CacheNodes env nodes w).1 = None →
  ticks (CacheNodes env nodes w).2 = (ticks w + unstamped nodes)%nat.
Proof.
  intros Hok.
  destruct (CacheNodes_execs env nodes w) as (k & _ & _ & Ht & Hall).
  rewrite Ht, (Hall Hok), firstn_all. reflexivity.
Qed.
End CacheNodesMore.

(** ** More on the registry *)

(** X16: hostnames the registry does not know, resolved one after the
    other, are given the registry's size plus 1, plus 2, and so on. *)
Theorem resolveAll_fresh (hs : list string) : ∀ (reg : gmap string Z),
  NoDup hs → (∀ h, h ∈ hs → reg !! h = None) →
  Z.of_nat (size reg + length hs) ≤ maxInt →
  (resolveAll hs reg).1
  = (λ k, Z.of_nat (size reg) + 1 + Z.of_nat k) <$> seq 0 (length hs).
Proof.
  induction hs as [|h hs IH]; intros reg Hnd Hfresh Hsize; [reflexivity|].
  apply NoDup_cons in Hnd as [Hh Hnd]. simpl in Hsize.
  assert (Hnone : reg !! h = None) by (apply Hfresh; apply elem_of_cons; now left).
  simpl resolveAll.
  pose proof (resolve_fresh_id h reg Hnone ltac:(lia)) as Hid.
  rewrite (resolve_fresh _ _ Hnone) in *. simpl in Hid.
  set (reg' := <[h := wrapInt (Z.of_nat (size reg) + 1)]> reg) in *.
  specialize (IH reg' Hnd).
  assert (Hsz : size reg' = S (size reg)) by now apply map_size_insert_None.
  destruct (resolveAll hs reg') as [ids r]. simpl in *.
  rewrite IH, Hid.
  - simpl. rewrite Z.add_0_r. f_equal.
    rewrite <- fmap_S_seq, <- list_fmap_compose. apply list_fmap_ext.
    intros _ k _. simpl. rewrite Hsz. lia.
  - intros h' Hh'. unfold reg'. rewrite lookup_insert_ne.
    + apply Hfresh. apply elem_of_cons. now right.
    + intros ->. contradiction.
  - rewrite Hsz. lia.
Qed.

Lemma resolve_unique (source : string) (reg : gmap string Z) :
  Z.of_nat (size reg) < maxInt →
  denseIDs reg → uniqueIDs reg →
  denseIDs (resolve source reg).2 ∧ uniqueIDs (resolve source reg).2.
Proof.
  intros Hsize Hdense Huniq.
  destruct (reg !! source) as [id|] eqn:Hs.
  - rewrite (resolve_known _ _ _ Hs). auto.
  - pose proof (resolve_fresh_id source reg Hs Hsize) as Hid.
    rewrite (resolve_fresh _ _ Hs) in *. simpl in *. rewrite Hid.
    split.
    + intros h id. rewrite map_size_insert_None by exact Hs.
      destruct (decide (source = h)) as [<-|Hne].
      * rewrite lookup_insert_eq. intros [= <-]. lia.
      * rewrite lookup_insert_ne by exact Hne. intros Hh.
        specialize (Hdense h id Hh). lia.
    + intros h1 h2 id.
      destruct (decide (source = h1)) as [<-|Hne1];
        destruct (decide (source = h2)) as [<-|Hne2];
        rewrite ?lookup_insert_eq, ?lookup_insert_ne by assumption; auto.
      * intros [= <-] H2. specialize (Hdense h2 _ H2). lia.
      * intros H1 [= <-]. specialize (Hdense h1 _ H1). lia.
      * apply Huniq.
Qed.

Lemma rangeData_unique address entries : ∀ reg ns,
  Z.of_nat (size reg + length entries) ≤ maxInt →
  denseIDs reg → uniqueIDs reg →
  denseIDs (rangeData address entries reg ns).2
  ∧ uniqueIDs (rangeData address entries reg ns).2.
Proof.
  induction entries as [|[source remoteNodes] rest IH]; intros reg ns Hsize Hd Hu.
  - auto.
  - rewrite rangeData_cons. simpl in Hsize.
    destruct (resolve_unique (effectiveSource false address source) reg) as [Hd' Hu'];
      [lia|exact Hd|exact Hu|].
    apply IH; [|exact Hd'|exact Hu'].
    pose proof (resolve_size (effectiveSource false address source) reg). lia.
Qed.

Lemma rangeData_subseteq address entries : ∀ reg ns,
  reg ⊆ (rangeData address entries reg ns).2.
Proof.
  intros reg ns. apply map_subseteq_spec. intros k v Hk.
  now apply rangeData_preserves.
Qed.

Section FetcherMore.
Context (env : Env).

(** X17: a fetch that no other task disturbs, started on a registry
    whose IDs are all different and do not exceed its size, leaves a
    registry of the same kind: the IDs it hands out are new. *)
Theorem fetch_keeps_ids_unique
    (task : nat) (address : string) (reg : gmap string Z) (data : gmap string (list Node)) :
  httpGet env task (apiAllURL address) = Decoded data →
  Z.of_nat (size reg + length (rangeOrder env data)) ≤ maxInt →
  denseIDs reg → uniqueIDs reg →
  denseIDs (GetAllFromChildMap env task address reg).2
  ∧ uniqueIDs (GetAllFromChildMap env task address reg).2.
Proof.
  intros Hget Hsize Hd Hu. unfold GetAllFromChildMap. rewrite Hget.
  pose proof (rangeData_unique address (rangeOrder env data) reg [] Hsize Hd Hu) as H.
  now destruct (rangeData address (rangeOrder env data) reg []).
Qed.

(** X18: a fetch on its own never removes or changes an entry of the
    registry, and one whose request fails returns nil and leaves the
    registry as it was. *)
Theorem fetch_extends_registry (task : nat) (address : string) (reg : gmap string Z) :
  reg ⊆ (GetAllFromChildMap env task address reg).2
  ∧ (isDecoded (httpGet env task (apiAllURL address)) = false →
     GetAllFromChildMap env task address reg = (None, reg)).
Proof.
  split; [|apply GetAllFromChildMap_failed].
  unfold GetAllFromChildMap.
  destruct (httpGet env task (apiAllURL address)) as [e|e|msg|data]; try reflexivity.
  pose proof (rangeData_subseteq address (rangeOrder env data) reg []) as H.
  now destruct (rangeData address (rangeOrder env data) reg []).
Qed.

(** X19: in the slice a fetch on its own returns, the nodes of every
    origin of the payload form one block stamped with the ID the
    registry holds afterwards for that origin (for the queried address
    when the origin is "local"). *)
Theorem origin_stamped_with_registry_id
    (task : nat) (address source : string) (reg reg' : gmap string Z)
    (out : list Node) (data : gmap string (list Node)) (remoteNodes : list Node) :
  rangeValid env →
  GetAllFromChildMap env task address reg = (Some out, reg') →
  httpGet env task (apiAllURL address) = Decoded data →
  data !! source = Some remoteNodes →
  ∃ id pre post,
    reg' !! effectiveSource false address source = Some id
    ∧ out = pre ++ map (setSourceID id) remoteNodes ++ post.
Proof.
  intros Hvalid Hrun Hget Hin.
  apply GetAllFromChildMap_decoded in Hrun as (data' & Hget' & Hrange).
  rewrite Hget in Hget'. injection Hget' as <-.
  assert (Hsplit : ∃ l1 l2, rangeOrder env data = l1 ++ (source, remoteNodes) :: l2).
  { apply list_elem_of_split. rewrite (Hvalid data). now apply elem_of_map_to_list. }
  destruct Hsplit as (l1 & l2 & Hsplit).
  rewrite Hsplit, rangeData_block in Hrange. injection Hrange as Hout Hreg.
  eexists _, _, _. split; [|symmetry; exact Hout].
  rewrite <- Hreg. apply rangeData_preserves, resolve_lookup.
Qed.
End FetcherMore.

(** ** The URL *)

Lemma trimRightSlash_snoc s :
  trimRightSlash (s +:+ "/") = trimRightSlash s.
Proof.
  induction s as [|c s IH]; [reflexivity|].
  simpl. change (String.append s "/") with (s +:+ "/"). now rewrite IH.
Qed.

Lemma append_slash_neq s : s +:+ "/" ≠ s.
Proof.
  induction s as [|c s IH]; [discriminate|].
  simpl. intros [= H]. now apply IH.
Qed.

(** X20: a trailing slash in a configured address does not change the
    URL fetched, but it does change the name under which the remote's
    own nodes are registered. *)
Theorem trailing_slash_same_url_other_source (address : string) :
  apiAllURL (address +:+ "/") = apiAllURL address
  ∧ effectiveSource false (address +:+ "/") "local"
    ≠ effectiveSource false address "local".
Proof.
  split.
  - unfold apiAllURL. now rewrite trimRightSlash_snoc.
  - rewrite !effectiveSource_local. apply append_slash_neq.
Qed.

(** ** More on the pass *)

Section PassMore.
Context (env : Env) (addresses : list string).

Lemma loaded_update s s' i pc' :
  loadedInv env s → mainPC s ≠ MLoad →
  mainPC s' ≠ MLoad →
  tasks s' = <[i := pc']> (tasks s) →
  sourceToID s' = sourceToID s →
  (∀ a source remoteNodes todo ns,
     pc' = TMiss a source remoteNodes todo ns → loadedRegistry env !! source = None) →
  loadedInv env s'.
Proof.
  intros [Hload|[Hsub Hmiss]] Hpc Hpc' Ht Hreg Hnew; [contradiction|].
  right. rewrite Hreg, Ht. split; [exact Hsub|].
  intros j a source rn todo ns Hj.
  apply list_lookup_insert_Some in Hj as [(-> & Heq & _)|[Hne Hj]].
  - eapply Hnew. exact Heq.
  - eapply Hmiss. exact Hj.
Qed.

Lemma loadedInv_step a s s' :
  barrierInv addresses s → passInv env s → loadedInv env s →
  step env addresses a s = Some s' → loadedInv env s'.
Proof.
  intros Hbar Hpass Hinv Hstep. destruct a as [|i].
  - step_cases Hstep.
    + (* the load failed *)
      right. destruct Hbar as (_ & _ & _ & Hb). destruct Hpass as [_ Hp].
      match goal with H : mainPC s = MLoad |- _ => rewrite H in Hb, Hp end.
      destruct Hb as [Ht _]. destruct Hp as [Hw _]. simpl.
      unfold loadedRegistry. rewrite <- Hw.
      match goal with H : GetMapSourceToID _ _ = _ |- _ => rewrite H end. simpl.
      split; [reflexivity|]. intros j ? ? ? ? ? Hj. rewrite Ht in Hj. discriminate.
    + right. destruct Hbar as (_ & _ & _ & Hb). destruct Hpass as [_ Hp].
      match goal with H : mainPC s = MLoad |- _ => rewrite H in Hb, Hp end.
      destruct Hb as [Ht _]. destruct Hp as [Hw _]. simpl.
      unfold loadedRegistry. rewrite <- Hw.
      match goal with H : GetMapSourceToID _ _ = _ |- _ => rewrite H end. simpl.
      split; [reflexivity|]. intros j ? ? ? ? ? Hj. rewrite Ht in Hj. discriminate.
    + destruct Hinv as [Hl|Hinv]; [congruence|]. now right.
    + destruct Hinv as [Hl|[Hsub Hmiss]]; [congruence|]. right. simpl.
      split; [exact Hsub|]. intros j a src rn todo ns Hj.
      apply lookup_app_Some in Hj as [Hj|[_ Hj]]; [eapply Hmiss; eauto|].
      apply list_lookup_singleton_Some in Hj as [_ Hj]. discriminate.
    + destruct Hinv as [Hl|Hinv]; [congruence|]. now right.
    + destruct Hinv as [Hl|Hinv]; [congruence|]. now right.
  - assert (Hpc : mainPC s ≠ MLoad).
    { intros Hl. destruct Hbar as (_ & _ & _ & Hb). rewrite Hl in Hb.
      destruct Hb as [Ht _]. unfold step, stepTask in Hstep. rewrite Ht in Hstep.
      discriminate. }
    pose proof Hinv as [Hl|[Hsub Hmiss]]; [contradiction|].
    step_cases Hstep.
    all: try (eapply loaded_update;
              [exact Hinv|exact Hpc|simpl; solve [exact Hpc|discriminate]
              |reflexivity|reflexivity|discriminate]; fail).
    + (* a miss *)
      eapply loaded_update; [exact Hinv|exact Hpc|exact Hpc|reflexivity|reflexivity|].
      intros ? ? ? ? ? [= <- <- <- <- <-].
      destruct (loadedRegistry env !! _) as [id|] eqn:Hk; [|reflexivity].
      eapply lookup_weaken in Hk; [|exact Hsub].
      unfold lookupSource in *. congruence.
    + (* the registration *)
      right. simpl. split.
      * apply insert_subseteq_r; [|exact Hsub]. eapply Hmiss. eassumption.
      * intros j a src rn todo' ns' Hj.
        apply list_lookup_insert_Some in Hj as [(_ & [=] & _)|[_ Hj]].
        eapply Hmiss. exact Hj.
    + (* the signal *)
      eapply loaded_update; [exact Hinv|congruence|discriminate
                            |reflexivity|reflexivity|discriminate].
Qed.

Lemma loadedRegistry_local : is_Some (loadedRegistry env !! "local").
Proof.
  unfold loadedRegistry. rewrite GetMapSourceToID_unfold. simpl.
  destruct (queryRes env _ sourceToIDSQL) as [[|msg]|rows]; simpl;
    try (eexists; reflexivity).
  apply scanRows_keeps. eexists; reflexivity.
Qed.

(** X25: under every interleaving, the entries loaded from the table
    at the start of the pass are in the registry unchanged for as long
    as the pass runs; in particular "local" keeps its ID. *)
Theorem loaded_entries_stable (s : State) :
  reachable env addresses s → mainPC s ≠ MLoad →
  loadedRegistry env ⊆ sourceToID s
  ∧ sourceToID s !! "local" = loadedRegistry env !! "local"
  ∧ is_Some (sourceToID s !! "local").
Proof.
  intros Hreach Hpc.
  assert (Hinv : barrierInv addresses s ∧ passInv env s ∧ loadedInv env s).
  { revert Hreach.
    apply (reachable_invariant env addresses
             (λ s, barrierInv addresses s ∧ passInv env s ∧ loadedInv env s)).
    - split; [apply barrierInv_initial|]. split; [apply passInv_initial|now left].
    - intros a s0 s1 (Hb & Hp & Hl) Hstep.
      split; [eapply barrierInv_step; eauto|].
      split; [eapply passInv_step; eauto|eapply loadedInv_step; eauto]. }
  destruct Hinv as (_ & _ & [Hl|[Hsub _]]); [contradiction|].
  destruct loadedRegistry_local as [id Hid].
  pose proof (lookup_weaken _ _ _ _ Hid Hsub) as Hs.
  split; [exact Hsub|]. rewrite Hs, Hid. eauto.
Qed.

(** X26: a pass sends the database the query for the hostname table
    and the statements of the batch insert, nothing else, and nothing
    at all between the load and the commit: the hostnames it discovers
    are not written to [cached_maps]. *)
Theorem pass_database_traffic (s : State) :
  reachable env addresses s →
  Forall passEvent (dbLog (world s))
  ∧ (match mainPC s with
     | MLoad => dbLog (world s) = []
     | MSpawn _ | MWait _ | MCommit => dbLog (world s) = [EvQuery sourceToIDSQL]
     | MReturned _ => True
     end).
Proof.
  intros Hreach.
  destruct (reachable_invariants env addresses s Hreach) as (_ & [_ Hm] & _).
  assert (Hload : dbLog (loadedWorld env) = [EvQuery sourceToIDSQL]).
  { unfold loadedWorld. now rewrite GetMapSourceToID_unfold. }
  assert (Hq : Forall passEvent [EvQuery sourceToIDSQL]) by (repeat constructor).
  destruct (mainPC s).
  - destruct Hm as [-> _]. split; [constructor|reflexivity].
  - destruct Hm as (_ & -> & _). rewrite Hload. auto.
  - destruct Hm as (_ & -> & _). rewrite Hload. auto.
  - destruct Hm as (_ & -> & _). rewrite Hload. auto.
  - split; [|exact I].
    destruct Hm as [(_ & _ & _ & -> & _)|(_ & _ & _ & ->)]; [now rewrite Hload|].
    destruct (CacheNodes_events env (nodes s) (loadedWorld env)) as (rows & -> & Hall & _).
    rewrite Hload. apply Forall_app. split; [exact Hq|].
    apply Forall_app. split; [repeat constructor|].
    apply Forall_app. split.
    + apply Forall_fmap. eapply Forall_impl; [exact Hall|].
      intros args Hlen. split; [reflexivity|exact Hlen].
    + destruct (CacheNodes env (nodes s) (loadedWorld env)).1; repeat constructor.
Qed.
End PassMore.

(** ** Instances *)

Ltac decide_it := refine (bool_decide_unpack _ _); vm_compute; exact I.

Lemma GetMapSourceToID_stops_at_scan_error_witness :
  (GetMapSourceToID MoreExamples.envBroken world0).1.2 = Some (ErrOther "bad column")
  ∧ size (GetMapSourceToID MoreExamples.envBroken world0).1.1 = 2%nat
  ∧ ∀ h id, (GetMapSourceToID MoreExamples.envBroken world0).1.1 !! h = Some id
            ↔ ((h, id) ∈ [("a.example", 1)]) ∨ (h = "local" ∧ id = 0).
Proof.
  apply (GetMapSourceToID_stops_at_scan_error MoreExamples.envBroken world0
           [("a.example", 1)] (ErrOther "bad column") [ScanOk "b.example" 2]).
  - decide_it.
  - decide_it.
  - reflexivity.
Defined.

Lemma GetMapSourceToID_table_witness :
  (GetMapSourceToID MoreExamples.envTable world0).1.2 = None
  ∧ size (GetMapSourceToID MoreExamples.envTable world0).1.1 = 3%nat
  ∧ ∀ h id, (GetMapSourceToID MoreExamples.envTable world0).1.1 !! h = Some id
            ↔ ((h, id) ∈ MoreExamples.table) ∨ (h = "local" ∧ id = 0).
Proof.
  apply (GetMapSourceToID_table MoreExamples.envTable world0 MoreExamples.table).
  - decide_it.
  - decide_it.
  - reflexivity.
Defined.

Lemma GetMapIDToSource_table_witness :
  (GetMapIDToSource MoreExamples.envTable world0).1.2 = None
  ∧ ∀ id h, (GetMapIDToSource MoreExamples.envTable world0).1.1 !! id = Some h
            ↔ ((h, id) ∈ MoreExamples.table)
              ∨ ((id ∉ MoreExamples.table.*2) ∧ id = 0 ∧ h = "local").
Proof.
  apply (GetMapIDToSource_table MoreExamples.envTable world0 MoreExamples.table).
  - decide_it.
  - reflexivity.
Defined.

Lemma registry_round_trip_witness :
  (GetMapSourceToID MoreExamples.envTable world0).1.1 !! "b.example" = Some 2
  ↔ (GetMapIDToSource MoreExamples.envTable world0).1.1 !! 2 = Some "b.example".
Proof.
  apply (registry_round_trip MoreExamples.envTable world0 world0 MoreExamples.table).
  - decide_it.
  - decide_it.
  - decide_it.
  - decide_it.
  - reflexivity.
  - reflexivity.
Defined.

Lemma FindSourceMap_agrees_with_table_witness :
  (FindSourceMap MoreExamples.rowOfTable 2 world0).1 = ("b.example", None)
  ∧ (GetMapIDToSource MoreExamples.envTable world0).1.1 !! 2 = Some "b.example".
Proof.
  apply (FindSourceMap_agrees_with_table MoreExamples.envTable MoreExamples.rowOfTable
           MoreExamples.table world0 world0 2 "b.example").
  - decide_it.
  - decide_it.
  - reflexivity.
  - right. split; [discriminate|]. split; [decide_it|reflexivity].
Defined.

Lemma CacheFormatNodes_groups_witness :
  ∃ groups,
    (CacheFormatNodes MoreExamples.envTable MoreExamples.mixedNodes world0).1.1
    = Some groups
    ∧ ∀ h l, groups !! h = Some l
             ↔ l = filter (λ n, hostOf (GetMapIDToSource MoreExamples.envTable world0).1.1 n = h)
                     MoreExamples.mixedNodes
               ∧ l ≠ [].
Proof.
  eexists. split; [vm_compute; reflexivity|].
  apply (CacheFormatNodes_groups MoreExamples.envTable MoreExamples.mixedNodes world0).
  vm_compute; reflexivity.
Defined.

Lemma CacheFormatNodes_partition_witness :
  ∃ groups,
    (CacheFormatNodes MoreExamples.envTable MoreExamples.mixedNodes world0).1.1
    = Some groups
    ∧ concat (map_to_list groups).*2 ≡ₚ MoreExamples.mixedNodes.
Proof.
  eexists. split; [vm_compute; reflexivity|].
  apply (CacheFormatNodes_partition MoreExamples.envTable MoreExamples.mixedNodes world0).
  vm_compute; reflexivity.
Defined.

Lemma CacheFormatNodes_unknown_source_witness :
  ∃ groups,
    (CacheFormatNodes MoreExamples.envTable MoreExamples.mixedNodes world0).1.1
    = Some groups
    ∧ ∃ l, groups !! "" = Some l ∧ MoreExamples.node3 ∈ l.
Proof.
  eexists. split; [vm_compute; reflexivity|].
  apply (CacheFormatNodes_unknown_source MoreExamples.envTable
           MoreExamples.mixedNodes world0).
  - vm_compute; reflexivity.
  - do 3 apply list_elem_of_further. apply list_elem_of_here.
  - vm_compute; reflexivity.
Defined.

Lemma CacheNodes_all_written_witness :
  execArgs (dbLog (CacheNodes Examples.envLocal
                     [Examples.node1; Examples.node2] world0).2)
  = execArgs (dbLog world0)
    ++ batchRows Examples.envLocal (ticks world0) [Examples.node1; Examples.node2].
Proof.
  apply (CacheNodes_all_written Examples.envLocal [Examples.node1; Examples.node2] world0).
  vm_compute; reflexivity.
Defined.

Lemma CacheNodes_clock_readings_witness :
  ticks (CacheNodes Examples.envLocal [Examples.node1; Examples.node2] world0).2
  = (ticks world0 + unstamped [Examples.node1; Examples.node2])%nat.
Proof.
  apply (CacheNodes_clock_readings Examples.envLocal
           [Examples.node1; Examples.node2] world0).
  vm_compute; reflexivity.
Defined.

Lemma resolveAll_fresh_witness :
  (resolveAll ["a.example"; "b.example"] seedRegistry).1
  = (λ k, Z.of_nat (size seedRegistry) + 1 + Z.of_nat k) <$> seq 0 2.
Proof.
  apply (resolveAll_fresh ["a.example"; "b.example"] seedRegistry).
  - decide_it.
  - intros h Hh. apply elem_of_cons in Hh as [->|Hh]; [reflexivity|].
    apply list_elem_of_singleton in Hh as ->. reflexivity.
  - vm_compute. discriminate.
Defined.

Lemma seed_dense : denseIDs seedRegistry.
Proof.
  intros h id Hh. unfold seedRegistry in Hh.
  apply lookup_singleton_Some in Hh as [_ <-].
  split; vm_compute; discriminate.
Defined.

Lemma seed_unique : uniqueIDs seedRegistry.
Proof.
  intros h1 h2 id H1 H2. unfold seedRegistry in H1, H2.
  apply lookup_singleton_Some in H1 as [<- _].
  apply lookup_singleton_Some in H2 as [<- _]. reflexivity.
Defined.

Lemma fetch_keeps_ids_unique_witness :
  denseIDs (GetAllFromChildMap Examples.envLocal 0 "a.example" seedRegistry).2
  ∧ uniqueIDs (GetAllFromChildMap Examples.envLocal 0 "a.example" seedRegistry).2.
Proof.
  apply (fetch_keeps_ids_unique Examples.envLocal 0 "a.example" seedRegistry
           {[ "local" := [Examples.node1; Examples.node2] ]}).
  - reflexivity.
  - vm_compute. discriminate.
  - exact seed_dense.
  - exact seed_unique.
Defined.

Lemma origin_stamped_with_registry_id_witness :
  ∃ id pre post,
    (<["a.example" := 2]> seedRegistry : gmap string Z)
      !! effectiveSource false "a.example" "local" = Some id
    ∧ [setSourceID 2 Examples.node1; setSourceID 2 Examples.node2]
      = pre ++ map (setSourceID id) [Examples.node1; Examples.node2] ++ post.
Proof.
  apply (origin_stamped_with_registry_id Examples.envLocal 0 "a.example" "local"
           seedRegistry (<["a.example" := 2]> seedRegistry)
           [setSourceID 2 Examples.node1; setSourceID 2 Examples.node2]
           {[ "local" := [Examples.node1; Examples.node2] ]}
           [Examples.node1; Examples.node2]).
  - intros data. reflexivity.
  - vm_compute; reflexivity.
  - reflexivity.
  - reflexivity.
Defined.

Lemma oneDown_reachable :
  reachable Examples.envOneDown Examples.twoRemotes
    (MoreExamples.runOf Examples.envOneDown Examples.twoRemotes Examples.oneDown).
Proof. exists Examples.oneDown. vm_compute; reflexivity. Defined.

Lemma oneDownToCommit_reachable :
  reachable Examples.envOneDown Examples.twoRemotes
    (MoreExamples.runOf Examples.envOneDown Examples.twoRemotes
       MoreExamples.oneDownToCommit).
Proof. exists MoreExamples.oneDownToCommit. vm_compute; reflexivity. Defined.

Lemma commit_after_all_signals_witness :
  length (tasks (MoreExamples.runOf Examples.envOneDown Examples.twoRemotes MoreExamples.oneDownToCommit))
  = length Examples.twoRemotes
  ∧ spawned (trace (MoreExamples.runOf Examples.envOneDown Examples.twoRemotes MoreExamples.oneDownToCommit))
    = seq 0 (length Examples.twoRemotes)
  ∧ signalled (trace (MoreExamples.runOf Examples.envOneDown Examples.twoRemotes MoreExamples.oneDownToCommit))
    ≡ₚ seq 0 (length Examples.twoRemotes)
  ∧ ∀ i pc, tasks (MoreExamples.runOf Examples.envOneDown Examples.twoRemotes MoreExamples.oneDownToCommit) !! i = Some pc → pc = TDone.
Proof.
  apply (commit_after_all_signals Examples.envOneDown Examples.twoRemotes).
  - exact oneDownToCommit_reachable.
  - vm_compute; reflexivity.
Defined.

Lemma task_fetches_later_address_witness :
  ∃ j a, (1 ≤ j)%nat ∧ Examples.twoRemotes !! j = Some a
         ∧ "http://b.example/api/all" = apiAllURL a.
Proof.
  apply (task_fetches_later_address Examples.envOneDown Examples.twoRemotes
           (MoreExamples.runOf Examples.envOneDown Examples.twoRemotes Examples.oneDown)).
  - exact oneDown_reachable.
  - decide_it.
Defined.


Lemma loaded_entries_stable_witness :
  loadedRegistry Examples.envOneDown
    ⊆ sourceToID (MoreExamples.runOf Examples.envOneDown Examples.twoRemotes Examples.oneDown)
  ∧ sourceToID (MoreExamples.runOf Examples.envOneDown Examples.twoRemotes Examples.oneDown) !! "local"
    = loadedRegistry Examples.envOneDown !! "local"
  ∧ is_Some (sourceToID (MoreExamples.runOf Examples.envOneDown Examples.twoRemotes Examples.oneDown) !! "local").
Proof.
  apply (loaded_entries_stable Examples.envOneDown Examples.twoRemotes).
  - exact oneDown_reachable.
  - vm_compute. discriminate.
Defined.

Lemma pass_database_traffic_witness :
  Forall passEvent (dbLog (world (MoreExamples.runOf Examples.envOneDown Examples.twoRemotes MoreExamples.oneDownToCommit)))
  ∧ (match mainPC (MoreExamples.runOf Examples.envOneDown Examples.twoRemotes MoreExamples.oneDownToCommit) with
     | MLoad => dbLog (world (MoreExamples.runOf Examples.envOneDown Examples.twoRemotes MoreExamples.oneDownToCommit)) = []
     | MSpawn _ | MWait _ | MCommit =>
         dbLog (world (MoreExamples.runOf Examples.envOneDown Examples.twoRemotes MoreExamples.oneDownToCommit)) = [EvQuery sourceToIDSQL]
     | MReturned _ => True
     end).
Proof.
  apply (pass_database_traffic Examples.envOneDown Examples.twoRemotes).
  exact oneDownToCommit_reachable.
Defined.
